(** * KungFu: the experiment sweep ([run-experiments]) and the simple
    launcher ([kungfu-run])

    A shallow embedding of [srcs/go/cmd/run-experiments/run-experiments.go]
    and of [simpleRun], [inferIP] and the choice of [selfIP] from
    [srcs/go/cmd/kungfu-run/kungfu-run.go].

    - Go slices of structs are lists; an [int] is a [Z] (no arithmetic is
      performed on them here, only comparisons, so no wrap-around arises).
    - A Go [error] value is [option error], [None] being [nil].
    - A call that may panic returns a [result] with an explicit [panic] case.
    - The goroutines of [runAllExperiments] are threads of an interleaving
      small-step semantics whose shared state holds the buffered channel
      [pool], the two mutexes and the [records] slice. *)

From Stdlib Require Import ZArith Lia.
From Stdlib Require Import Floats.SpecFloat.
From Stdlib Require DecimalString.
From stdpp Require Import base option list strings gmap.

Local Open Scope Z_scope.

(** ** Data model *)

(** Modelled from the spec: [rch.HostSpec] is declared in package [rchannel],
    which is not part of the sources at hand; its fields are the ones the
    sweep reads and writes ([Hostname], [Slots], [PublicAddr]). *)
Record HostSpec : Type := mkHostSpec {
  Hostname : string;
  Slots : Z;
  PublicAddr : string;
}.

#[global] Instance HostSpec_eq_dec : EqDecision HostSpec.
Proof. solve_decision. Defined.

(** [w.Slots = p] on a local copy [w]. *)
Definition set_Slots (w : HostSpec) (p : Z) : HostSpec :=
  {| Hostname := Hostname w; Slots := p; PublicAddr := PublicAddr w |}.

(** Go error values.  The sweep only ever tests an error against [nil]; the
    launcher also tests it against the sentinel [context.DeadlineExceeded]. *)
Inductive error : Type :=
| errors_New (msg : string)
| context_DeadlineExceeded
| context_Canceled.

#[global] Instance error_eq_dec : EqDecision error.
Proof. solve_decision. Defined.

(** Outcome of a call returning [(T, error)] that may also panic. *)
Inductive result (A : Type) : Type :=
| ok (a : A)
| err (e : error)
| panic (msg : string).
Arguments ok {A} a.
Arguments err {A} e.
Arguments panic {A} msg.


(** ** [reschedule] *)

(** The body of [for i, p := range partition], from index [i] on, with
    [workers] accumulated so far.  [hosts[i]] panics out of range. *)
Fixpoint reschedule_loop (hosts : list HostSpec) (i : nat)
    (partition : list Z) (workers : list HostSpec) : result (list HostSpec) :=
  match partition with
  | [] => ok workers
  | p :: partition' =>
      match hosts !! i with
      | None => panic "index out of range"
      | Some w =>
          if Slots w <? p then err (errors_New "host slots not enough")
          else reschedule_loop hosts (S i) partition' (workers ++ [set_Slots w p])
      end
  end.

Definition reschedule (hosts : list HostSpec) (partition : list Z)
  : result (list HostSpec) :=
  if (length hosts <? length partition)%nat
  then err (errors_New "hosts not enough")
  else reschedule_loop hosts 0 partition [].

(** Some host is too small for the partition element at its index. *)
Definition slot_deficit (hosts : list HostSpec) (partition : list Z) : Prop :=
  ∃ (i : nat) (w : HostSpec) (p : Z),
    hosts !! i = Some w ∧ partition !! i = Some p ∧ Slots w < p.

Section reschedule_facts.
Implicit Types (hosts workers : list HostSpec) (partition : list Z).

Lemma reschedule_loop_ok hosts partition : ∀ i workers,
  (i + length partition ≤ length hosts)%nat →
  (∀ j w p, hosts !! (i + j)%nat = Some w → partition !! j = Some p → p ≤ Slots w) →
  reschedule_loop hosts i partition workers
  = ok (workers ++ zip_with set_Slots (drop i hosts) partition).
Proof.
  induction partition as [|p partition IH]; intros i workers Hlen Hfit; simpl.
  - destruct (drop i hosts); by rewrite app_nil_r.
  - simpl in Hlen.
    destruct (lookup_lt_is_Some_2 hosts i) as [w Hw]; [lia|].
    rewrite Hw.
    assert (p ≤ Slots w) as Hp.
    { apply (Hfit 0%nat w p); [by rewrite Nat.add_0_r|done]. }
    destruct (Z.ltb_spec (Slots w) p) as [?|_]; [lia|].
    rewrite IH; [|lia|].
    + rewrite (drop_S _ _ _ Hw). simpl. by rewrite <- app_assoc.
    + intros j w' p' Hj Hp'. apply (Hfit (S j) w' p'); [|done].
      by rewrite Nat.add_succ_r.
Qed.

Lemma reschedule_loop_deficit hosts partition : ∀ i workers,
  (i + length partition ≤ length hosts)%nat →
  (∃ j w p, hosts !! (i + j)%nat = Some w ∧ partition !! j = Some p ∧ Slots w < p) →
  reschedule_loop hosts i partition workers
  = err (errors_New "host slots not enough").
Proof.
  induction partition as [|p partition IH]; intros i workers Hlen Hbad; simpl.
  - destruct Hbad as (j & w & p & _ & Hp & _). by rewrite lookup_nil in Hp.
  - simpl in Hlen.
    destruct (lookup_lt_is_Some_2 hosts i) as [w Hw]; [lia|].
    rewrite Hw.
    destruct (Z.ltb_spec (Slots w) p) as [?|Hge]; [done|].
    apply IH; [lia|].
    destruct Hbad as (j & w' & p' & Hj & Hp' & Hlt).
    destruct j as [|j].
    + rewrite Nat.add_0_r in Hj. simpl in Hp'. simplify_eq. lia.
    + exists j, w', p'. by rewrite Nat.add_succ_l, <- Nat.add_succ_r.
Qed.

Lemma slot_deficit_dec hosts partition :
  slot_deficit hosts partition ∨
  (∀ j w p, hosts !! j = Some w → partition !! j = Some p → p ≤ Slots w).
Proof.
  revert partition.
  induction hosts as [|w hosts IH]; intros partition.
  - right. intros j w p Hj. by rewrite lookup_nil in Hj.
  - destruct partition as [|p partition].
    { right. intros j w' p' _ Hp. by rewrite lookup_nil in Hp. }
    destruct (Z.lt_ge_cases (Slots w) p) as [Hlt|Hge].
    { left. by exists 0%nat, w, p. }
    destruct (IH partition) as [(j & w' & p' & ? & ? & ?)|Hok].
    + left. by exists (S j), w', p'.
    + right. intros [|j] w' p' Hj Hp; simpl in *; simplify_eq; [lia|].
      by eapply Hok.
Qed.

Lemma reschedule_never_panics hosts partition msg :
  reschedule hosts partition ≠ panic msg.
Proof.
  unfold reschedule.
  destruct (Nat.ltb_spec (length hosts) (length partition)) as [?|Hle]; [done|].
  destruct (slot_deficit_dec hosts partition) as [(j & w & p & ? & ? & ?)|Hok].
  - rewrite reschedule_loop_deficit; [done|simpl; lia|].
    by exists j, w, p.
  - rewrite reschedule_loop_ok; [done|simpl; lia|].
    intros j w p ??. by eapply Hok.
Qed.
End reschedule_facts.


Example reschedule_shrinks :
  reschedule [mkHostSpec "a" 4 ""; mkHostSpec "b" 4 "pub"; mkHostSpec "c" 4 ""] [1; 3]
  = ok [mkHostSpec "a" 1 ""; mkHostSpec "b" 3 "pub"].
Proof. reflexivity. Qed.

Example reschedule_too_few_hosts :
  reschedule [mkHostSpec "a" 4 ""] [1; 3] = err (errors_New "hosts not enough").
Proof. reflexivity. Qed.

Example reschedule_too_few_slots :
  reschedule [mkHostSpec "a" 4 ""; mkHostSpec "b" 2 ""] [4; 4]
  = err (errors_New "host slots not enough").
Proof. reflexivity. Qed.

(** ** [reschedule] on the heap

    The same function with its slices laid out in memory, to observe what it
    writes.  A [[]rch.HostSpec] is a header (pointer, offset, length,
    capacity) over a backing array; [rch.HostSpec] holds two (immutable)
    strings and an [int], so [w := hosts[i]] copies the record into the
    local [w]. *)
Module Mem.

Abbreviation heap := (gmap nat (list HostSpec)).

(* The list-level functions, before their names are reused below. *)
Local Abbreviation list_reschedule_loop := reschedule_loop.
Local Abbreviation list_reschedule := reschedule.

Inductive slice : Type :=
| nil_slice
| mk_slice (ptr off len cap : nat).

Definition zero_HostSpec : HostSpec :=
  {| Hostname := ""; Slots := 0; PublicAddr := "" |}.

(** The elements a slice denotes. *)
Definition contents (h : heap) (s : slice) : list HostSpec :=
  match s with
  | nil_slice => []
  | mk_slice ptr off len _ => take len (drop off (default [] (h !! ptr)))
  end.

Definition slice_len (s : slice) : nat :=
  match s with nil_slice => 0 | mk_slice _ _ len _ => len end.

(** [s[i]] *)
Definition index (h : heap) (s : slice) (i : nat) : option HostSpec :=
  contents h s !! i.

(** A header that points into an allocated array and stays inside it. *)
Definition wf (h : heap) (s : slice) : Prop :=
  match s with
  | nil_slice => True
  | mk_slice ptr off len cap =>
      (len ≤ cap)%nat ∧
      ∃ arr, h !! ptr = Some arr ∧ (off + cap ≤ length arr)%nat
  end.

Section with_growth.
(** The capacity the runtime picks when [append] must reallocate, from
    the old capacity; [append] takes at least what it needs. *)
Variable growcap : nat → nat.

(** [append(s, w)]: in place while capacity lasts, otherwise into a
    freshly allocated array holding a copy of the elements. *)
Definition append (h : heap) (s : slice) (w : HostSpec) : slice * heap :=
  let grow (len cap : nat) :=
    let cap' := Nat.max (S len) (growcap cap) in
    let a := fresh (dom h) in
    (mk_slice a 0 (S len) cap',
     <[a := contents h s ++ [w] ++ replicate (cap' - S len) zero_HostSpec]> h) in
  match s with
  | nil_slice => grow 0%nat 0%nat
  | mk_slice ptr off len cap =>
      if decide (len < cap)%nat
      then (mk_slice ptr off (S len) cap,
            alter (λ arr, <[(off + len)%nat := w]> arr) ptr h)
      else grow len cap
  end.

Fixpoint reschedule_loop (h : heap) (hosts : slice) (i : nat)
    (partition : list Z) (workers : slice) : result slice * heap :=
  match partition with
  | [] => (ok workers, h)
  | p :: partition' =>
      match index h hosts i with
      | None => (panic "index out of range", h)
      | Some w =>
          if Slots w <? p
          then (err (errors_New "host slots not enough"), h)
          else
            let '(workers', h') := append h workers (set_Slots w p) in
            reschedule_loop h' hosts (S i) partition' workers'
      end
  end.

Definition reschedule (h : heap) (hosts : slice) (partition : list Z)
  : result slice * heap :=
  if (slice_len hosts <? length partition)%nat
  then (err (errors_New "hosts not enough"), h)
  else reschedule_loop h hosts 0 partition nil_slice.

(** Where a slice points, if anywhere. *)
Definition outside (h0 : heap) (s : slice) : Prop :=
  match s with
  | nil_slice => True
  | mk_slice ptr _ _ _ => h0 !! ptr = None
  end.

Lemma append_frame (h0 h : heap) s w :
  h0 ⊆ h → outside h0 s →
  h0 ⊆ (append h s w).2 ∧ outside h0 (append h s w).1.
Proof.
  intros Hsub Hout.
  assert (h0 !! fresh (dom h) = None) as Hfresh.
  { destruct (h0 !! fresh (dom h)) as [arr|] eqn:E; [|done].
    exfalso. apply (is_fresh (dom h)).
    apply elem_of_dom. exists arr.
    by eapply lookup_weaken. }
  unfold append. destruct s as [|ptr off len cap]; simpl.
  - split; [by apply insert_subseteq_r|done].
  - case_decide; simpl.
    + split; [|done].
      apply map_subseteq_spec. intros a arr Ha.
      rewrite lookup_alter_ne; [by eapply lookup_weaken|].
      intros ->. simpl in Hout. congruence.
    + split; [by apply insert_subseteq_r|done].
Qed.

Lemma reschedule_loop_frame (h0 : heap) hosts partition :
  ∀ h i workers, h0 ⊆ h → outside h0 workers →
    h0 ⊆ (reschedule_loop h hosts i partition workers).2.
Proof.
  induction partition as [|p partition IH]; intros h i workers Hsub Hout; simpl.
  - done.
  - destruct (index h hosts i) as [w|]; [|done].
    destruct (Slots w <? p); [done|].
    destruct (append_frame h0 h workers (set_Slots w p) Hsub Hout) as [Hsub' Hout'].
    destruct (append h workers (set_Slots w p)) as [workers' h'].
    by apply IH.
Qed.

Lemma reschedule_frame (h : heap) hosts partition :
  h ⊆ (reschedule h hosts partition).2.
Proof.
  unfold reschedule. destruct (_ <? _)%nat; [done|].
  by apply reschedule_loop_frame.
Qed.

Lemma contents_weaken (h0 h : heap) s :
  h0 ⊆ h → wf h0 s → contents h s = contents h0 s.
Proof.
  intros Hsub Hwf. destruct s as [|ptr off len cap]; [done|].
  destruct Hwf as (_ & arr & Harr & _). simpl.
  by rewrite Harr, (lookup_weaken _ _ _ _ Harr Hsub).
Qed.

Lemma length_contents (h : heap) s :
  wf h s → length (contents h s) = slice_len s.
Proof.
  destruct s as [|ptr off len cap]; [done|].
  intros (Hlen & arr & Harr & Hcap). simpl. rewrite Harr. simpl.
  rewrite length_take, length_drop. lia.
Qed.

Lemma append_contents (h : heap) s w :
  wf h s →
  wf (append h s w).2 (append h s w).1
  ∧ contents (append h s w).2 (append h s w).1 = contents h s ++ [w].
Proof.
  intros Hwf. pose proof (length_contents h s Hwf) as Hlen.
  assert (∀ len cap,
    length (contents h s) = len →
    let cap' := Nat.max (S len) (growcap cap) in
    let a := fresh (dom h) in
    let h' := <[a := contents h s ++ [w] ++ replicate (cap' - S len) zero_HostSpec]> h in
    wf h' (mk_slice a 0 (S len) cap')
    ∧ contents h' (mk_slice a 0 (S len) cap') = contents h s ++ [w]) as Hgrow.
  { intros len cap Hl cap' a h'. split.
    - split; [lia|]. eexists. split; [apply lookup_insert_eq|].
      rewrite !length_app, length_replicate, Hl. simpl. lia.
    - unfold contents at 1. unfold h'. rewrite lookup_insert_eq. simpl.
      rewrite cons_middle, app_assoc.
      rewrite drop_0, take_app_length'; [done|].
      rewrite length_app, Hl. simpl. lia. }
  unfold append. destruct s as [|ptr off len cap].
  - apply (Hgrow 0%nat 0%nat). done.
  - case_decide as Hlt; [|by apply Hgrow].
    simpl in Hlen. destruct Hwf as (Hle & arr & Harr & Hcap). simpl.
    rewrite lookup_alter_eq, Harr. simpl. split.
    + split; [lia|]. eexists. split; [done|]. by rewrite length_insert.
    + rewrite drop_insert_ge by lia.
      replace (off + len - off)%nat with len by lia.
      rewrite (take_S_r _ _ w).
      * by rewrite take_insert_ge.
      * apply list_lookup_insert_eq. rewrite length_drop. lia.
Qed.

(** The heap-level function computes what the list-level one does. *)
Definition agrees (h' : heap) (r : result slice) (r0 : result (list HostSpec)) : Prop :=
  match r0 with
  | ok ws => ∃ s, r = ok s ∧ wf h' s ∧ contents h' s = ws
  | err e => r = err e
  | panic msg => r = panic msg
  end.

Lemma reschedule_loop_refines (h0 : heap) hosts partition :
  wf h0 hosts →
  ∀ h i workers, h0 ⊆ h → outside h0 workers → wf h workers →
    agrees (reschedule_loop h hosts i partition workers).2
           (reschedule_loop h hosts i partition workers).1
           (list_reschedule_loop (contents h0 hosts) i partition
              (contents h workers)).
Proof.
  intros Hhosts.
  induction partition as [|p partition IH]; intros h i workers Hsub Hout Hwf; simpl.
  - by exists workers.
  - unfold index. rewrite (contents_weaken h0 h hosts Hsub Hhosts).
    destruct (contents h0 hosts !! i) as [w|]; [|done].
    destruct (Slots w <? p); [done|].
    destruct (append_frame h0 h workers (set_Slots w p) Hsub Hout) as [Hsub' Hout'].
    destruct (append_contents h workers (set_Slots w p) Hwf) as [Hwf' Hc].
    destruct (append h workers (set_Slots w p)) as [workers' h'].
    simpl in *. rewrite <- Hc. by apply IH.
Qed.

Lemma reschedule_refines (h : heap) hosts partition :
  wf h hosts →
  agrees (reschedule h hosts partition).2 (reschedule h hosts partition).1
         (list_reschedule (contents h hosts) partition).
Proof.
  intros Hwf. unfold reschedule, list_reschedule.
  rewrite (length_contents h hosts Hwf).
  destruct (_ <? _)%nat; [done|].
  by apply (reschedule_loop_refines h hosts partition Hwf h 0%nat nil_slice).
Qed.
End with_growth.
End Mem.

(** C8: [reschedule] writes only to memory it allocates itself: every array
    that existed before the call, the one behind [hosts] included, is
    unchanged after it, whether the call succeeds or fails, so each input
    record keeps its hostname, slot count and public address; the records
    it returns are shrunk copies. *)
Theorem reschedule_leaves_hosts_untouched (growcap : nat → nat)
    (h : gmap nat (list HostSpec)) (hosts : Mem.slice) (partition : list Z) :
  Mem.wf h hosts →
  let h' := (Mem.reschedule growcap h hosts partition).2 in
  (∀ a arr, h !! a = Some arr → h' !! a = Some arr)
  ∧ (∀ i, Mem.index h' hosts i = Mem.index h hosts i)
  ∧ Mem.agrees h' (Mem.reschedule growcap h hosts partition).1
      (reschedule (Mem.contents h hosts) partition).
Proof.
  intros Hwf h'.
  pose proof (Mem.reschedule_frame growcap h hosts partition) as Hsub.
  split; [|split].
  - intros a arr Ha. by eapply lookup_weaken.
  - intros i. unfold Mem.index. by rewrite (Mem.contents_weaken h h' hosts Hsub Hwf).
  - by apply Mem.reschedule_refines.
Qed.

(** ** [grep] *)

(** [strings.HasPrefix(s, prefix)], byte by byte. *)
Fixpoint strings_HasPrefix (s prefix : string) {struct prefix} : bool :=
  match prefix, s with
  | EmptyString, _ => true
  | String _ _, EmptyString => false
  | String c prefix', String d s' =>
      if Ascii.eqb d c then strings_HasPrefix s' prefix' else false
  end.

(** [strings.Contains(s, substr)]: [substr] occurs at some offset of [s]. *)
Fixpoint strings_Contains (s substr : string) : bool :=
  strings_HasPrefix s substr ||
  match s with
  | EmptyString => false
  | String _ s' => strings_Contains s' substr
  end.

(** The loop of [grep], with the [lines] collected so far. *)
Fixpoint grep_loop (pattern : string) (input lines : list string) : list string :=
  match input with
  | [] => lines
  | line :: input' =>
      grep_loop pattern input'
        (if strings_Contains line pattern then lines ++ [line] else lines)
  end.

Definition grep (pattern : string) (input : list string) : list string :=
  grep_loop pattern input [].

Section grep_facts.
Lemma append_String c (s t : string) :
  (String c s +:+ t = String c (s +:+ t))%string.
Proof. reflexivity. Qed.

Lemma strings_HasPrefix_spec s prefix :
  strings_HasPrefix s prefix = true ↔ ∃ post, s = (prefix +:+ post)%string.
Proof.
  revert s. induction prefix as [|c prefix IH]; intros s; simpl.
  - split; [intros _; by exists s|done].
  - destruct s as [|d s].
    + split; [done|]. by intros [post ?].
    + destruct (Ascii.eqb_spec d c) as [->|Hne].
      * rewrite IH.
        split; intros [post Hp]; exists post; rewrite append_String in *; congruence.
      * split; [done|]. intros [post Hp]. rewrite append_String in Hp. congruence.
Qed.

Lemma strings_Contains_spec s substr :
  strings_Contains s substr = true
  ↔ ∃ pre post, s = (pre +:+ substr +:+ post)%string.
Proof.
  induction s as [|d s IH]; simpl.
  - rewrite orb_false_r, strings_HasPrefix_spec. split.
    + intros [post ->]. by exists EmptyString, post.
    + intros (pre & post & Hs). destruct pre; [by exists post|done].
  - rewrite orb_true_iff, IH, strings_HasPrefix_spec. split.
    + intros [[post ->]|(pre & post & ->)].
      * by exists EmptyString, post.
      * by exists (String d pre), post.
    + intros (pre & post & Hs). destruct pre as [|c pre].
      * left. by exists post.
      * right. exists pre, post. rewrite append_String in Hs. congruence.
Qed.

Lemma grep_loop_filter pattern input : ∀ lines,
  grep_loop pattern input lines
  = lines ++ filter (λ line, strings_Contains line pattern = true) input.
Proof.
  induction input as [|line input IH]; intros lines; simpl.
  - by rewrite app_nil_r.
  - rewrite IH. destruct (strings_Contains line pattern) eqn:E.
    + rewrite filter_cons_True by done. by rewrite <- app_assoc.
    + rewrite filter_cons_False; [done|]. by rewrite E.
Qed.

Lemma grep_filter pattern input :
  grep pattern input = filter (λ line, strings_Contains line pattern = true) input.
Proof. apply grep_loop_filter. Qed.

Lemma grep_nil_iff pattern input :
  grep pattern input = [] ↔ ∀ line, line ∈ input → strings_Contains line pattern = false.
Proof.
  rewrite grep_filter. induction input as [|line input IH].
  - split; [|done]. intros _ line Hin. by apply elem_of_nil in Hin.
  - destruct (strings_Contains line pattern) eqn:E.
    + rewrite filter_cons_True by done. split; [done|].
      intros H. specialize (H line (list_elem_of_here _ _)). congruence.
    + rewrite filter_cons_False by (by rewrite E). rewrite IH. split.
      * intros H l Hl. apply elem_of_cons in Hl as [->|?]; auto.
      * intros H l Hl. apply H. by apply list_elem_of_further.
Qed.
End grep_facts.

(** ** [parseResult]

    [parseResult] is one call of [fmt.Sscanf] whose returned count and error
    are dropped, so what it does to [*r] is what the scanner stored before it
    stopped.  The scanner of the Go library is modelled here for formats made
    of literals, blanks and [%f]-like verbs without width, which is what the
    format of [parseResult] uses. *)
Module fmt.

Abbreviation rune := N (only parsing).
Abbreviation float32 := spec_float (only parsing).

Definition RuneError : rune := 65533%N.

Definition between (lo hi x : N) : bool := ((lo <=? x) && (x <=? hi))%N.

(** The low six bits of a continuation byte. *)
Definition cont (c : Ascii.ascii) : N := N.land (Ascii.N_of_ascii c) 63.

(** [[]rune(s)]: UTF-8 decoding as [utf8.DecodeRune] does it, one
    [RuneError] per byte that starts no valid encoding. *)
Fixpoint runes (s : list Ascii.ascii) : list rune :=
  match s with
  | [] => []
  | c0 :: s1 =>
      let b0 := Ascii.N_of_ascii c0 in
      let bad (_ : unit) := RuneError :: runes s1 in
      if (b0 <? 128)%N then b0 :: runes s1
      else if between 194 223 b0 then
        match s1 with
        | c1 :: s2 =>
            if between 128 191 (Ascii.N_of_ascii c1)
            then (N.shiftl (N.land b0 31) 6 + cont c1)%N :: runes s2
            else bad ()
        | _ => bad ()
        end
      else if between 224 239 b0 then
        match s1 with
        | c1 :: (c2 :: s3) as s2 =>
            if between (if (b0 =? 224)%N then 160 else 128)
                       (if (b0 =? 237)%N then 159 else 191) (Ascii.N_of_ascii c1)
               && between 128 191 (Ascii.N_of_ascii c2)
            then (N.shiftl (N.land b0 15) 12 + N.shiftl (cont c1) 6 + cont c2)%N
                 :: runes s3
            else bad ()
        | _ => bad ()
        end
      else if between 240 244 b0 then
        match s1 with
        | c1 :: c2 :: c3 :: s4 =>
            if between (if (b0 =? 240)%N then 144 else 128)
                       (if (b0 =? 244)%N then 143 else 191) (Ascii.N_of_ascii c1)
               && between 128 191 (Ascii.N_of_ascii c2)
               && between 128 191 (Ascii.N_of_ascii c3)
            then (N.shiftl (N.land b0 7) 18 + N.shiftl (cont c1) 12
                  + N.shiftl (cont c2) 6 + cont c3)%N :: runes s4
            else bad ()
        | _ => bad ()
        end
      else bad ()
  end.

Definition runes_of (s : string) : list rune := runes (String.list_ascii_of_string s).

(** The table [space] of [fmt/scan.go]. *)
Definition isSpace (r : rune) : bool :=
  between 9 13 r || (r =? 32)%N || (r =? 133)%N || (r =? 160)%N
  || (r =? 5760)%N || between 8192 8202 r || between 8232 8233 r
  || (r =? 8239)%N || (r =? 8287)%N || (r =? 12288)%N.

Definition newline : rune := 10%N.
Definition percent : rune := 37%N.

(** [indexRune(ok, r) >= 0] *)
Definition one_of (ok : string) (r : rune) : bool :=
  existsb (N.eqb r) (runes_of ok).

(** *** The format *)

(** What a format string asks for, piece by piece: a run of blanks (with
    the number of newlines in it and whether blanks follow the last one),
    a literal, or a verb. *)
Inductive directive : Type :=
| Blank (newlines : nat) (trailingSpace : bool)
| Lit (c : rune)
| Verb (c : rune)
| MissingVerb.

(** The blanks at the head of a format, as [advance] collapses them. *)
Fixpoint blank_run (format : list rune) (newlines : nat) (trailingSpace : bool)
  : nat * bool * list rune :=
  match format with
  | c :: format' =>
      if isSpace c then
        if (c =? newline)%N then blank_run format' (S newlines) false
        else blank_run format' newlines true
      else (newlines, trailingSpace, format)
  | [] => (newlines, trailingSpace, [])
  end.

Fixpoint directives_fuel (fuel : nat) (format : list rune) : list directive :=
  match fuel with
  | O => []
  | S fuel =>
      match format with
      | [] => []
      | c :: format' =>
          if isSpace c then
            let '(n, t, rest) := blank_run format 0 false in
            Blank n t :: directives_fuel fuel rest
          else if (c =? percent)%N then
            match format' with
            | [] => [MissingVerb]
            | v :: rest =>
                (if (v =? percent)%N then Lit percent else Verb v)
                :: directives_fuel fuel rest
            end
          else Lit c :: directives_fuel fuel format'
      end
  end.

Definition directives (format : string) : list directive :=
  let f := runes_of format in directives_fuel (length f) f.

(** *** The input *)

(** A step of the scanner: what it read and the input left, or the error
    it stopped with. *)
Inductive scanned (A : Type) : Type :=
| Got (a : A) (rest : list rune)
| Stop (msg : string).
Arguments Got {A} a rest.
Arguments Stop {A} msg.

(** [s.peek(ok)] *)
Definition peek (ok : string) (input : list rune) : bool :=
  match input with
  | r :: _ => one_of ok r
  | [] => false
  end.

(** [s.SkipSpace()] of a scanner for which a newline is not a space. *)
Fixpoint SkipSpace (input : list rune) : scanned unit :=
  match input with
  | [] => Got () []
  | r :: input' =>
      if (r =? 13)%N && peek (String (Ascii.ascii_of_nat 10) "") input'
      then SkipSpace input'
      else if (r =? newline)%N then Stop "unexpected newline"
      else if negb (isSpace r) then Got () input
      else SkipSpace input'
  end.

(** [for isSpace(inputc) && inputc != '\n' { inputc = s.getRune() }] *)
Fixpoint skip_blanks (input : list rune) : list rune :=
  match input with
  | r :: input' =>
      if isSpace r && negb (r =? newline)%N then skip_blanks input' else input
  | [] => []
  end.

(** [advance] over a run of blanks of the format. *)
Fixpoint match_newlines (newlines : nat) (input : list rune) : scanned unit :=
  match newlines with
  | O => Got () input
  | S newlines' =>
      match skip_blanks input with
      | [] => match_newlines newlines' []
      | r :: rest =>
          if (r =? newline)%N then match_newlines newlines' rest
          else Stop "newline in format does not match input"
      end
  end.

Definition match_trailing (newlines : nat) (input : list rune) : scanned unit :=
  match input with
  | [] => Got () []
  | r :: _ =>
      if (newlines =? 0)%nat && negb (isSpace r)
      then Stop "expected space in input to match format"
      else if (newlines =? 0)%nat && (r =? newline)%N
      then Stop "newline in input does not match format"
      else Got () (skip_blanks input)
  end.

Definition match_blank (newlines : nat) (trailingSpace : bool)
    (input : list rune) : scanned unit :=
  match match_newlines newlines input with
  | Stop msg => Stop msg
  | Got _ rest => if trailingSpace then match_trailing newlines rest else Got () rest
  end.

(** [advance] over a literal of the format. *)
Definition match_lit (c : rune) (input : list rune) : scanned unit :=
  match input with
  | [] => Stop "unexpected EOF"
  | r :: rest => if (c =? r)%N then Got () rest else Stop "input does not match format"
  end.

(** *** Floating-point tokens *)

(** [s.accept(ok)]: the token read so far and the input left. *)
Definition accept (ok : string) (st : list rune * list rune)
  : bool * (list rune * list rune) :=
  match st.2 with
  | r :: input' => if one_of ok r then (true, (st.1 ++ [r], input')) else (false, st)
  | [] => (false, st)
  end.

(** [for s.accept(ok) {}] *)
Fixpoint accept_all (ok : string) (buf input : list rune) : list rune * list rune :=
  match input with
  | r :: input' => if one_of ok r then accept_all ok (buf ++ [r]) input' else (buf, input)
  | [] => (buf, [])
  end.

(** [a && b] where [b] reads on only if [a] succeeded. *)
Definition and_then (a : bool * (list rune * list rune))
    (b : list rune * list rune → bool * (list rune * list rune)) :=
  if a.1 then b a.2 else a.

Definition decimalDigits : string := "0123456789_".
Definition hexadecimalDigits : string := "0123456789aAbBcCdDeEfF_".

(** [s.floatToken()], as of Go 1.13: it also reads hexadecimal digits
    after [0x] and the digit separator [_].  A failed [&&] keeps what the
    calls before it accepted. *)
Definition floatToken (input : list rune) : list rune * list rune :=
  let nan := and_then (and_then (accept "nN" ([], input)) (accept "aA")) (accept "nN") in
  if nan.1 then nan.2 else
  let signed := (accept "+-" nan.2).2 in
  let inf := and_then (and_then (accept "iI" signed) (accept "nN")) (accept "fF") in
  if inf.1 then inf.2 else
  let hex := and_then (accept "0" inf.2) (accept "xX") in
  let digits := if hex.1 then hexadecimalDigits else decimalDigits in
  let exp := if hex.1 then "pP"%string else "eEpP"%string in
  let int := accept_all digits hex.2.1 hex.2.2 in
  let dot := accept "." int in
  let frac := if dot.1 then accept_all digits dot.2.1 dot.2.2 else dot.2 in
  let e := accept exp frac in
  if e.1 then
    let esign := (accept "+-" e.2).2 in
    accept_all decimalDigits esign.1 esign.2
  else e.2.

(** *** Conversion to [float32] *)

Definition prec : Z := 24.
Definition emax : Z := 128.

(** The [float32] nearest to [±m·10^e10], ties to even: what
    [strconv.ParseFloat(s, 32)] returns for a decimal numeral. *)
Definition nearest32 (neg : bool) (m e10 : Z) : float32 :=
  match m with
  | Zpos _ =>
      if 0 <=? e10 then binary_round prec emax neg (Z.to_pos (m * 10 ^ e10)) 0
      else
        let '(q, e, l) := SFdiv_core_binary prec emax m 0 (10 ^ (- e10)) 0 in
        binary_round_aux prec emax neg q e l
  | _ => S754_zero neg
  end.

Definition read_sign (s : list rune) : bool * list rune :=
  match s with
  | r :: s' =>
      if (r =? 45)%N then (true, s') else if (r =? 43)%N then (false, s') else (false, s)
  | [] => (false, [])
  end.

(** Decimal digits at the head of [s], accumulated onto [acc], and how
    many there were. *)
Fixpoint read_digits (s : list rune) (acc : Z) (n : nat) : Z * nat * list rune :=
  match s with
  | r :: s' =>
      if between 48 57 r then read_digits s' (10 * acc + (Z.of_N r - 48)) (S n)
      else (acc, n, s)
  | [] => (acc, n, [])
  end.

(** A decimal numeral [[+-]digits[.digits][(e|E)[+-]digits]] with a digit
    in its mantissa, as sign, integer mantissa and power of ten. *)
Definition parse_decimal (tok : list rune) : option (bool * Z * Z) :=
  let '(neg, s1) := read_sign tok in
  let '(m1, n1, s2) := read_digits s1 0 0 in
  let '(m, n2, s3) :=
    match s2 with
    | r :: s' => if (r =? 46)%N then read_digits s' m1 0 else (m1, 0%nat, s2)
    | [] => (m1, 0%nat, [])
    end in
  if (n1 + n2 =? 0)%nat then None else
  match s3 with
  | [] => Some (neg, m, - Z.of_nat n2)
  | r :: s4 =>
      if (r =? 101)%N || (r =? 69)%N then
        let '(eneg, s5) := read_sign s4 in
        let '(e, n3, s6) := read_digits s5 0 0 in
        match n3, s6 with
        | S _, [] => Some (neg, m, (if eneg then - e else e) - Z.of_nat n2)
        | _, _ => None
        end
      else None
  end.

Section with_strconv.
(** What [strconv.ParseFloat(s, 32)] makes of a token that is not
    written with signs, decimal digits, a point and [e]/[E] only
    (infinities, NaN, hexadecimal and binary-exponent forms, digit
    separators); [None] when it reports an error. *)
Variable ParseFloat_other : list rune → option float32.

(** [float32(s.convertFloat(token, 32))], [None] when the conversion
    reports a syntax or a range error. *)
Definition convertFloat (tok : list rune) : option float32 :=
  if forallb (one_of "+-0123456789.eE") tok then
    match parse_decimal tok with
    | None => None
    | Some (neg, m, e10) =>
        match nearest32 neg m e10 with
        | S754_infinity _ => None
        | f => Some f
        end
    end
  else ParseFloat_other tok.

(** [s.scanOne(verb, arg)] for [arg] a [*float32]. *)
Definition scan_float32 (verb : rune) (input : list rune) : scanned float32 :=
  if negb (one_of "beEfFgGv" verb) then Stop "bad verb for float32" else
  match SkipSpace input with
  | Stop msg => Stop msg
  | Got _ [] => Stop "EOF"
  | Got _ rest =>
      let '(tok, rest') := floatToken rest in
      match convertFloat tok with
      | None => Stop "strconv.ParseFloat: parsing failed"
      | Some f => Got f rest'
      end
  end.

(** [s.doScanf(format, a)] for operands [a] that are all [*float32]: the
    number of operands stored, the error, and the operands' values
    afterwards. *)
Fixpoint doScanf (ds : list directive) (input : list rune)
    (a : list float32) (numProcessed : nat) : nat * option string * list float32 :=
  let stop msg := (numProcessed, Some msg, a) in
  match ds with
  | [] =>
      (numProcessed,
       if (numProcessed <? length a)%nat then Some "too many operands"%string else None,
       a)
  | Blank n t :: ds' =>
      match match_blank n t input with
      | Stop msg => stop msg
      | Got _ rest => doScanf ds' rest a numProcessed
      end
  | Lit c :: ds' =>
      match match_lit c input with
      | Stop msg => stop msg
      | Got _ rest => doScanf ds' rest a numProcessed
      end
  | Verb c :: ds' =>
      match (if (c =? 99)%N then Got () input else SkipSpace input) with
      | Stop msg => stop msg
      | Got _ rest =>
          if (length a <=? numProcessed)%nat then stop "too few operands"%string else
          match scan_float32 c rest with
          | Stop msg => stop msg
          | Got f rest' => doScanf ds' rest' (<[numProcessed := f]> a) (S numProcessed)
          end
      end
  | MissingVerb :: _ => stop "missing verb: % at end of format string"%string
  end.

Definition Sscanf (str format : string) (a : list float32)
  : nat * option string * list float32 :=
  doScanf (directives format) (runes_of str) a 0.
End with_strconv.
End fmt.

Record Result : Type := mkResult {
  Mean : spec_float;
  Conf : spec_float;
}.

(** [var res Result]: both fields [+0]. *)
Definition zero_Result : Result :=
  {| Mean := S754_zero false; Conf := S754_zero false |}.

Section parseResult.
Variable ParseFloat_other : list N → option spec_float.

(** [parseResult(line, &r)]: the value of [*r] after the call. *)
Definition parseResult (line : string) (r : Result) : Result :=
  let a := (fmt.Sscanf ParseFloat_other line "Img/sec per /gpu:0: %f +-%f"
              [Mean r; Conf r]).2 in
  {| Mean := default (Mean r) (a !! 0%nat); Conf := default (Conf r) (a !! 1%nat) |}.
End parseResult.

Example grep_keeps_matching_lines :
  grep "Img/sec per /gpu:0"
    ["step 10"; "Img/sec per /gpu:0: 123.4 +-5.6"; ""; "total Img/sec per /gpu:0: 1 +-0"]
  = ["Img/sec per /gpu:0: 123.4 +-5.6"; "total Img/sec per /gpu:0: 1 +-0"].
Proof. reflexivity. Qed.

(** A line that has the label but does not start with it stops the scanner
    at once: nothing is stored. *)
Example parseResult_label_not_first :
  parseResult (λ _, None) "total Img/sec per /gpu:0: 1 +-0" zero_Result = zero_Result.
Proof. vm_compute. reflexivity. Qed.

(** A line cut short after the mean keeps the mean. *)
Example parseResult_mean_only :
  parseResult (λ _, None) "Img/sec per /gpu:0: 7" zero_Result
  = {| Mean := S754_finite false 14680064 (-21); Conf := S754_zero false |}.
Proof. vm_compute. reflexivity. Qed.

(** [f] is a normalised [float32] within half a unit in the last place of
    the fraction [num/den]: no [float32] is nearer to it. *)
Definition nearest_float32_of (f : spec_float) (num den : Z) : Prop :=
  match f with
  | S754_finite s m e =>
      valid_binary fmt.prec fmt.emax f = true
      ∧ e < 0
      ∧ 2 * Z.abs ((if s then - Zpos m else Zpos m) * den - num * 2 ^ (- e)) ≤ den
  | _ => False
  end.

(** C9: scanning the line ["Img/sec per /gpu:0: 123.4 +-5.6"] stores the
    [float32] values of 123.4 and 5.6 in [Mean] and [Conf], whatever [*r]
    held before; and [grep] keeps, in order, exactly the input lines in
    which the pattern occurs, so a line without the label is dropped. *)
Theorem parseResult_and_grep_spec (ParseFloat_other : list N → option spec_float) :
  (∀ r : Result,
     let r' := parseResult ParseFloat_other "Img/sec per /gpu:0: 123.4 +-5.6" r in
     r' = {| Mean := S754_finite false 16174285 (-17);
             Conf := S754_finite false 11744051 (-21) |}
     ∧ nearest_float32_of (Mean r') 1234 10
     ∧ nearest_float32_of (Conf r') 56 10)
  ∧ (∀ (pattern : string) (input : list string),
       grep pattern input = filter (λ line, strings_Contains line pattern = true) input
       ∧ ∀ line, line ∈ grep pattern input
           ↔ line ∈ input ∧ ∃ pre post, line = (pre +:+ pattern +:+ post)%string).
Proof.
  split.
  - intros r r'.
    assert (r' = {| Mean := S754_finite false 16174285 (-17);
                    Conf := S754_finite false 11744051 (-21) |}) as ->.
    { subst r'. vm_compute. reflexivity. }
    split; [done|]. split; (split; [by vm_compute|]); simpl; lia.
  - intros pattern input. split; [apply grep_filter|].
    intros line. rewrite grep_filter, list_elem_of_filter, strings_Contains_spec.
    tauto.
Qed.

(** ** [simpleRun] (kungfu-run) *)

(** Modelled from the spec: [utils.Measure] is not among the sources at
    hand.  It times a call and hands back the error the call returned; the
    duration only goes to the log and is not modelled.  The callee may
    update captured variables, here the state [St]. *)
Definition utils_Measure {St : Type} (f : St → St * option error) (st : St)
  : St * option error := f st.

Module KungfuRun.
(** How an invocation of [simpleRun] ends: it returns to [main], or
    [utils.ExitErr(err)] terminates the process with a failure status. *)
Inductive ending : Type :=
| returns
| exits (e : error).

Section simpleRun.
(** [sch.Proc], [sch.ForHost] and [runner.LocalRunAll] live in other
    packages; the run of the local processes under [ctx] is represented
    by the error it ends with. *)
Context {Proc : Type}.
Variable ForHost : string → list Proc → list Proc.
Variable LocalRunAll : list Proc → bool → option error.
Variable verboseLog : bool.

Definition simpleRun (selfIP : string) (ps : list Proc) : ending :=
  let myPs := ForHost selfIP ps in
  if (length myPs <=? 0)%nat then returns
  else
    let '(_, e) := utils_Measure (λ _ : unit, ((), LocalRunAll myPs verboseLog)) () in
    match e with
    | Some e =>
        if bool_decide (e ≠ context_DeadlineExceeded) then exits e else returns
    | None => returns
    end.

(** C10: [simpleRun] ends the process with an error exactly when the
    local runner was started and returned a non-nil error other than
    [context.DeadlineExceeded]; a run that ends with the deadline error
    returns normally, like a run without error. *)
Theorem simpleRun_exit_iff (selfIP : string) (ps : list Proc) :
  (∀ e, simpleRun selfIP ps = exits e
        ↔ (0 < length (ForHost selfIP ps))%nat
          ∧ LocalRunAll (ForHost selfIP ps) verboseLog = Some e
          ∧ e ≠ context_DeadlineExceeded)
  ∧ (simpleRun selfIP ps = returns
     ↔ (length (ForHost selfIP ps) = 0)%nat
       ∨ LocalRunAll (ForHost selfIP ps) verboseLog = None
       ∨ LocalRunAll (ForHost selfIP ps) verboseLog = Some context_DeadlineExceeded).
Proof.
  unfold simpleRun, utils_Measure.
  destruct (Nat.leb_spec (length (ForHost selfIP ps)) 0) as [Hle|Hlt].
  { split; [intros e|]; split.
    - done.
    - intros (? & _). lia.
    - intros _. left. lia.
    - done. }
  destruct (LocalRunAll (ForHost selfIP ps) verboseLog) as [e'|];
    [case_bool_decide as Hne; [|subst e']|];
    (split; [intros e|]; split; intros H; simplify_eq);
    intuition (simplify_eq; done || lia).
Qed.
End simpleRun.
End KungfuRun.

(** ** [runExperiment] *)

(** Modelled from the spec: [wire.KungFu_AllReduceAlgo] is declared in
    package [wire]; its values are the four the sweep enumerates. *)
Inductive KungFu_AllReduceAlgo : Type :=
| KungFu_Simple | KungFu_Ring | KungFu_Clique | KungFu_Tree.

#[global] Instance KungFu_AllReduceAlgo_eq_dec : EqDecision KungFu_AllReduceAlgo.
Proof. solve_decision. Defined.

(** The struct [Record] of the sweep. *)
Record ExperimentRecord : Type := mkRecord {
  Partition : list Z;
  Algo : KungFu_AllReduceAlgo;
  Result_ : Result;
}.

(** [sch.JobConfig] as the sweep fills it in. *)
Record JobConfig : Type := mkJobConfig {
  TaskCount : Z;
  HostList : string;
  Prog : string;
  Args : list string;
}.

(** What the runner hands back for one process; the sweep reads [Stdout]. *)
Record RunResult : Type := mkRunResult {
  Stdout : list string;
  Stderr : list string;
}.

(** Modelled from the spec: [rch.TotalCap] is not among the sources at
    hand; the total capacity of a host list is the sum of its members'
    capacities. *)
Definition TotalCap (hosts : list HostSpec) : Z :=
  foldr (λ h n, Slots h + n) 0 hosts.

(** [strings.Join(ss, sep)] *)
Fixpoint strings_Join (ss : list string) (sep : string) : string :=
  match ss with
  | [] => ""
  | [s] => s
  | s :: ss' => s +:+ sep +:+ strings_Join ss' sep
  end.

(** Two hosts of four slots each, for the scenarios below. *)
Definition host_a : HostSpec := {| Hostname := "10.0.0.1"; Slots := 4; PublicAddr := "" |}.
Definition host_b : HostSpec := {| Hostname := "10.0.0.2"; Slots := 4; PublicAddr := "" |}.

Section experiment.
(** [sch.Proc] and [HostSpec.String] belong to other packages. *)
Context {Proc : Type}.
Variable HostSpec_String : HostSpec → string.
Variable ParseFloat_other : list N → option spec_float.

(** The flags [-u], [-v] and [-timeout] and the program to run. *)
Variables (user : string) (verboseLog : bool) (timeout : Z).
Variables (prog : string) (args : list string).

(** How the cluster answers one experiment: the plan the scheduler builds
    for a job, and what running that plan remotely under the timeout
    yields (a timeout or a transport failure shows as the error). *)
Record World : Type := mkWorld {
  CreateProcs : JobConfig → KungFu_AllReduceAlgo → list Proc * option error;
  RemoteRunAll : Z → string → list Proc → bool → list RunResult * option error;
}.

Definition fmtHostSpecs (hosts : list HostSpec) : string :=
  strings_Join (HostSpec_String <$> hosts) ",".

(** The loop over [results] inside the measured closure: the first
    process with a matching line decides [res]. *)
Fixpoint scrape (results : list RunResult) (res : Result) : Result :=
  match results with
  | [] => res
  | r :: results' =>
      match grep "Img/sec per /gpu:0" (Stdout r) with
      | info0 :: _ => parseResult ParseFloat_other info0 res
      | [] => scrape results' res
      end
  end.

Definition runExperiment (W : World) (hosts : list HostSpec)
    (algo : KungFu_AllReduceAlgo) (partition : list Z) : result Result :=
  match reschedule hosts partition with
  | panic msg => panic msg
  | err e => err e
  | ok hosts =>
      let jc := {| TaskCount := TotalCap hosts; HostList := fmtHostSpecs hosts;
                   Prog := prog; Args := args |} in
      match CreateProcs W jc algo with
      | (_, Some e) => err e
      | (ps, None) =>
          let '(res, e) :=
            utils_Measure (λ res,
              let '(results, e) := RemoteRunAll W timeout user ps verboseLog in
              (scrape results res, e)) zero_Result in
          match e with
          | Some e => err e
          | None => ok res
          end
      end
  end.

Lemma runExperiment_never_panics W hosts algo partition msg :
  runExperiment W hosts algo partition ≠ panic msg.
Proof.
  unfold runExperiment, utils_Measure.
  pose proof (reschedule_never_panics hosts partition) as Hp.
  destruct (reschedule hosts partition) as [hosts'|e|msg']; [|done|by destruct (Hp msg')].
  destruct (CreateProcs W _ algo) as [ps [e|]]; [done|].
  destruct (RemoteRunAll W timeout user ps verboseLog) as [results [e|]]; done.
Qed.

Lemma scrape_no_match results res :
  (∀ r line, r ∈ results → line ∈ Stdout r →
             strings_Contains line "Img/sec per /gpu:0" = false) →
  scrape results res = res.
Proof.
  induction results as [|r results IH]; intros Hno; simpl; [done|].
  assert (grep "Img/sec per /gpu:0" (Stdout r) = []) as ->.
  { apply grep_nil_iff. intros line Hl. apply (Hno r line); [left|done]. }
  apply IH. intros r' line Hr. apply Hno. by right.
Qed.

(** ** [runAllExperiments] *)

(** *** [requireN]

    Where a goroutine stands inside [requireN]: before [banker.Lock()],
    before [banker.Unlock()], before the test [len(pool) >= n], inside
    [for i := 0; i < n; i++] with the hosts received so far, waiting for
    the ticker, or returning. *)
Inductive require_pc : Type :=
| at_Lock
| at_Unlock
| at_check
| at_take (hs : list HostSpec) (i : Z)
| at_tick
| returning (hs : list HostSpec).

(** One atomic action of [requireN(n)] on the mutex [banker] (held or
    not) and the queue of the channel [pool]: the next position, the new
    mutex and queue, and the host received if any.  [None]: the goroutine
    is blocked, on the mutex or on the empty channel.  A slice built by
    [append] alone is [nil] exactly when it is empty. *)
Definition requireN_step (n : Z) (pc : require_pc) (banker : bool)
    (pool : list HostSpec)
  : option (require_pc * bool * list HostSpec * option HostSpec) :=
  match pc with
  | at_Lock => if banker then None else Some (at_Unlock, true, pool, None)
  | at_Unlock => Some (at_check, false, pool, None)
  | at_check =>
      Some (if n <=? Z.of_nat (length pool) then at_take [] 0 else at_tick,
            banker, pool, None)
  | at_take hs i =>
      if i <? n then
        match pool with
        | [] => None
        | h :: pool' => Some (at_take (hs ++ [h]) (i + 1), banker, pool', Some h)
        end
      else
        Some (match hs with [] => at_tick | _ => returning hs end, banker, pool, None)
  | at_tick => Some (at_Lock, banker, pool, None)
  | returning _ => None
  end.

(** *** The experiment goroutines *)

(** The arguments of one call of [run]. *)
Definition task : Type := KungFu_AllReduceAlgo * list Z.

(** Where the goroutine spawned by [run] stands: inside [requireN]; about
    to call [runExperiment] on the hosts it got; about to take [lock],
    append its record, release [lock]; inside the deferred [returnAll]
    with the hosts still to send; past [wg.Done()]; or crashed. *)
Inductive pc : Type :=
| in_requireN (r : require_pc)
| at_runExperiment (hs : list HostSpec)
| at_lock_Lock (hs : list HostSpec) (r : ExperimentRecord)
| at_append (hs : list HostSpec) (r : ExperimentRecord)
| at_lock_Unlock (hs : list HostSpec)
| at_returnAll (rest : list HostSpec)
| finished
| panicked (msg : string).

(** What an action shows of itself. *)
Inductive event : Type :=
| ev_silent
| ev_recv (h : HostSpec)                (* [<-pool] *)
| ev_send (h : HostSpec)                (* [pool <- h] *)
| ev_experiment (out : result Result)   (* [runExperiment] returned *)
| ev_append (r : ExperimentRecord).     (* [records = append(records, r)] *)

(** The variables the goroutines share. *)
Record shared : Type := mkShared {
  pool : list HostSpec;       (* the queue of the channel, oldest first *)
  capacity : nat;             (* [cap(pool)] *)
  banker : bool;              (* is [banker] held *)
  lock : bool;                (* is [lock] held *)
  records : list ExperimentRecord;
}.

(** One atomic action of a goroutine running [tk] from position [p], the
    cluster answering as [W] if the action is the call of
    [runExperiment]: what it shows, the next position and the shared
    variables afterwards.  [None]: the goroutine is over or blocked (on a
    held mutex, on the empty channel or on the full channel). *)
Definition thread_step (W : World) (tk : task) (p : pc) (m : shared)
  : option (event * pc * shared) :=
  match p with
  | in_requireN r =>
      match requireN_step (Z.of_nat (length tk.2)) r (banker m) (pool m) with
      | None => None
      | Some (r', banker', pool', got) =>
          Some (from_option ev_recv ev_silent got,
                match r' with
                | returning hs => at_runExperiment hs
                | _ => in_requireN r'
                end,
                {| pool := pool'; capacity := capacity m; banker := banker';
                   lock := lock m; records := records m |})
      end
  | at_runExperiment hs =>
      let out := runExperiment W hs tk.1 tk.2 in
      Some (ev_experiment out,
            match out with
            | err _ => at_returnAll hs
            | ok res => at_lock_Lock hs (mkRecord tk.2 tk.1 res)
            | panic msg => panicked msg
            end,
            m)
  | at_lock_Lock hs r =>
      if lock m then None
      else Some (ev_silent, at_append hs r,
                 {| pool := pool m; capacity := capacity m; banker := banker m;
                    lock := true; records := records m |})
  | at_append hs r =>
      Some (ev_append r, at_lock_Unlock hs,
            {| pool := pool m; capacity := capacity m; banker := banker m;
               lock := lock m; records := records m ++ [r] |})
  | at_lock_Unlock hs =>
      Some (ev_silent, at_returnAll hs,
            {| pool := pool m; capacity := capacity m; banker := banker m;
               lock := false; records := records m |})
  | at_returnAll [] => Some (ev_silent, finished, m)
  | at_returnAll (h :: rest) =>
      if (length (pool m) <? capacity m)%nat
      then Some (ev_send h, at_returnAll rest,
                 {| pool := pool m ++ [h]; capacity := capacity m;
                    banker := banker m; lock := lock m; records := records m |})
      else None
  | finished | panicked _ => None
  end.

(** The shared variables and the goroutines, each with its task. *)
Record state : Type := mkState {
  mem : shared;
  threads : list (task * pc);
}.

(** One atomic action of goroutine [i]; [None] also when there is no
    goroutine [i]. *)
Definition step (W : World) (i : nat) (s : state) : option (event * state) :=
  match threads s !! i with
  | None => None
  | Some (tk, p) =>
      match thread_step W tk p (mem s) with
      | None => None
      | Some (ev, p', m') =>
          Some (ev, {| mem := m'; threads := <[i := (tk, p')]> (threads s) |})
      end
  end.

(** The calls of [run] in [runAllExperiments], in program order. *)
Definition algos : list KungFu_AllReduceAlgo :=
  [KungFu_Simple; KungFu_Ring; KungFu_Clique; KungFu_Tree].

Definition partitions : list (list Z) :=
  [[1]; [2]; [3]; [4]; [1; 3]; [2; 2]; [3; 3]; [4; 4]].

(** [run] spawns nothing when [len(hosts) < len(partition)]. *)
Definition spawned (hosts : list HostSpec) : list task :=
  a ← algos; p ← partitions;
  if (length hosts <? length p)%nat then [] else [(a, p)].

(** The state in which the goroutines [tasks] start: the channel filled
    with [hosts], both mutexes free, no record yet. *)
Definition init (hosts : list HostSpec) (tasks : list task) : state :=
  {| mem := {| pool := hosts; capacity := length hosts; banker := false;
               lock := false; records := [] |};
     threads := (λ tk, (tk, in_requireN at_Lock)) <$> tasks |}.

(** [wg.Wait()] returns: every goroutine is past [wg.Done()]. *)
Definition all_finished (s : state) : Prop :=
  Forall (λ t, t.2 = finished) (threads s).

(** *** Executions *)

Definition trace : Type := list (nat * event).

(** [exec s0 tr s]: some interleaving of the goroutines leads from [s0]
    to [s], showing [tr]. *)
Inductive exec (s0 : state) : trace → state → Prop :=
| exec_nil : exec s0 [] s0
| exec_step tr s W i ev s' :
    exec s0 tr s → step W i s = Some (ev, s') → exec s0 (tr ++ [(i, ev)]) s'.

(** The same, following a given schedule. *)
Fixpoint run_schedule (sched : list (nat * World)) (s : state)
  : option (trace * state) :=
  match sched with
  | [] => Some ([], s)
  | (i, W) :: sched' =>
      match step W i s with
      | None => None
      | Some (ev, s') =>
          match run_schedule sched' s' with
          | None => None
          | Some (tr, s'') => Some ((i, ev) :: tr, s'')
          end
      end
  end.

(** *** What a goroutine holds and what a trace shows of it *)

(** The hosts a goroutine has taken from the channel and not yet sent
    back. *)
Definition held (p : pc) : list HostSpec :=
  match p with
  | in_requireN (at_take hs _) => hs
  | at_runExperiment hs | at_lock_Lock hs _ | at_append hs _ | at_lock_Unlock hs => hs
  | at_returnAll rest => rest
  | _ => []
  end.

(** The hosts out of the pool. *)
Definition borrowed (s : state) : list HostSpec :=
  concat ((λ t, held t.2) <$> threads s).

(** The record a goroutine has built and not yet appended. *)
Definition pending (p : pc) : list ExperimentRecord :=
  match p with
  | at_lock_Lock _ r | at_append _ r => [r]
  | _ => []
  end.

(** Whether [runExperiment] has returned in this goroutine. *)
Definition ran (p : pc) : nat :=
  match p with
  | in_requireN _ | at_runExperiment _ => 0
  | _ => 1
  end.

(** Whether the goroutine is between [lock.Lock()] and [lock.Unlock()]. *)
Definition critical (p : pc) : nat :=
  match p with
  | at_append _ _ | at_lock_Unlock _ => 1
  | _ => 0
  end.

Definition recv_of (ev : event) : list HostSpec :=
  match ev with ev_recv h => [h] | _ => [] end.
Definition send_of (ev : event) : list HostSpec :=
  match ev with ev_send h => [h] | _ => [] end.
Definition append_of (ev : event) : list ExperimentRecord :=
  match ev with ev_append r => [r] | _ => [] end.
Definition experiment_of (ev : event) : list (result Result) :=
  match ev with ev_experiment out => [out] | _ => [] end.

(** The events of goroutine [i] in a trace, and among them the hosts it
    received, the hosts it sent back, the records it appended and the
    outcomes of its calls of [runExperiment]. *)
Definition events_of (i : nat) (tr : trace) : list event :=
  omap (λ x, if decide (x.1 = i) then Some x.2 else None) tr.
Definition received (i : nat) (tr : trace) : list HostSpec :=
  events_of i tr ≫= recv_of.
Definition sent (i : nat) (tr : trace) : list HostSpec :=
  events_of i tr ≫= send_of.
Definition appended (i : nat) (tr : trace) : list ExperimentRecord :=
  events_of i tr ≫= append_of.
Definition outcomes (i : nat) (tr : trace) : list (result Result) :=
  events_of i tr ≫= experiment_of.

(** All the records appended, in order. *)
Definition all_appended (tr : trace) : list ExperimentRecord :=
  tr ≫= (λ x, append_of x.2).

(** The records a task is to append, given how its experiments ended. *)
Definition records_of (tk : task) (outs : list (result Result))
  : list ExperimentRecord :=
  outs ≫= (λ out, match out with ok res => [mkRecord tk.2 tk.1 res] | _ => [] end).

(** *** One action *)

Lemma thread_step_local W tk p m ev p' m' :
  thread_step W tk p m = Some (ev, p', m') →
  capacity m' = capacity m
  ∧ recv_of ev ++ pool m' = pool m ++ send_of ev
  ∧ held p ++ recv_of ev = send_of ev ++ held p'
  ∧ records m' = records m ++ append_of ev
  ∧ append_of ev ++ pending p' = pending p ++ records_of tk (experiment_of ev)
  ∧ (length (experiment_of ev) + ran p = ran p')%nat
  ∧ (∀ msg, p' ≠ panicked msg).
Proof.
  intros Hstep. destruct p as [r|hs|hs r|hs r|hs|[|h rest]| |msg]; simpl in Hstep.
  - destruct r as [| | |hs j| |hs]; simpl in Hstep;
      repeat case_match; simplify_eq; simpl;
      rewrite ?app_nil_r; repeat split; done.
  - pose proof (runExperiment_never_panics W hs tk.1 tk.2) as Hp.
    destruct (runExperiment W hs tk.1 tk.2) as [res|e|msg]; simplify_eq; simpl;
      [| |by destruct (Hp msg)];
      rewrite ?app_nil_r; repeat split; done.
  - destruct (lock m); simplify_eq; simpl. rewrite ?app_nil_r. repeat split; done.
  - simplify_eq; simpl. rewrite ?app_nil_r. repeat split; done.
  - simplify_eq; simpl. rewrite ?app_nil_r. repeat split; done.
  - simplify_eq; simpl. rewrite ?app_nil_r. repeat split; done.
  - case_match; simplify_eq; simpl. rewrite ?app_nil_r. repeat split; done.
  - done.
  - done.
Qed.

Lemma step_inv W i s ev s' :
  step W i s = Some (ev, s') →
  ∃ tk p p',
    threads s !! i = Some (tk, p)
    ∧ threads s' = <[i := (tk, p')]> (threads s)
    ∧ thread_step W tk p (mem s) = Some (ev, p', mem s').
Proof.
  unfold step. intros Hstep.
  destruct (threads s !! i) as [[tk p]|] eqn:Hi; [|done].
  destruct (thread_step W tk p (mem s)) as [[[ev' p'] m']|] eqn:Hts; [|done].
  simplify_eq. by exists tk, p, p'.
Qed.

Lemma exec_cons s W i ev s1 tr s2 :
  step W i s = Some (ev, s1) → exec s1 tr s2 → exec s ((i, ev) :: tr) s2.
Proof.
  intros Hstep Hexec. induction Hexec as [|tr s2 W' j ev' s3 _ IH Hstep'].
  - apply (exec_step s [] s W i ev s1); [constructor|done].
  - rewrite app_comm_cons. by eapply exec_step.
Qed.

Lemma run_schedule_exec sched : ∀ s tr s',
  run_schedule sched s = Some (tr, s') → exec s tr s'.
Proof.
  induction sched as [|[i W] sched IH]; intros s tr s' Hrun; simpl in Hrun.
  - simplify_eq. constructor.
  - destruct (step W i s) as [[ev s1]|] eqn:Hstep; [|done].
    destruct (run_schedule sched s1) as [[tr1 s2]|] eqn:Hrest; [|done].
    simplify_eq. eapply exec_cons; [done|]. by apply IH.
Qed.

Lemma exec_trans s0 tr1 s1 tr2 s2 :
  exec s0 tr1 s1 → exec s1 tr2 s2 → exec s0 (tr1 ++ tr2) s2.
Proof.
  intros H1 H2. induction H2 as [|tr2 s2 W i ev s3 _ IH Hstep].
  - by rewrite app_nil_r.
  - rewrite app_assoc. by eapply exec_step.
Qed.

(** *** Invariants of the executions *)

Lemma events_of_snoc j tr i ev :
  events_of j (tr ++ [(i, ev)])
  = events_of j tr ++ (if decide (i = j) then [ev] else []).
Proof.
  unfold events_of. rewrite omap_app. simpl. by case_decide.
Qed.

Lemma insert_middle (l : list (task * pc)) i x y :
  l !! i = Some x →
  ∃ l1 l2, l = l1 ++ x :: l2 ∧ <[i := y]> l = l1 ++ y :: l2.
Proof.
  intros Hi. exists (take i l), (drop (S i) l). split.
  - by rewrite take_drop_middle.
  - apply insert_take_drop. by eapply lookup_lt_Some.
Qed.

(** What holds of goroutine [i], at position [p] of task [tk], after the
    trace [tr]: the hosts it received are those it sent back followed by
    those it holds; its records, appended or about to be, are those of its
    successful experiments; it called [runExperiment] at most once; it did
    not crash. *)
Definition thread_inv (tr : trace) (i : nat) (tk : task) (p : pc) : Prop :=
  received i tr = sent i tr ++ held p
  ∧ appended i tr ++ pending p = records_of tk (outcomes i tr)
  ∧ length (outcomes i tr) = ran p
  ∧ ∀ msg, p ≠ panicked msg.

Definition inv (hosts : list HostSpec) (tasks : list task)
    (tr : trace) (s : state) : Prop :=
  (λ t, t.1) <$> threads s = tasks
  ∧ capacity (mem s) = length hosts
  ∧ pool (mem s) ++ borrowed s ≡ₚ hosts
  ∧ records (mem s) = all_appended tr
  ∧ list_sum ((λ t, critical t.2) <$> threads s) = (if lock (mem s) then 1 else 0)%nat
  ∧ (∀ i ev, (i, ev) ∈ tr → (i < length tasks)%nat)
  ∧ (∀ i tk p, threads s !! i = Some (tk, p) → thread_inv tr i tk p).

Lemma inv_init hosts tasks : inv hosts tasks [] (init hosts tasks).
Proof.
  unfold inv, init, borrowed. simpl. repeat split.
  - rewrite <- list_fmap_compose.
    induction tasks as [|tk tasks' IH]; simpl; [done|f_equal; apply IH].
  - rewrite <- list_fmap_compose.
    induction tasks as [|tk tasks' IH]; simpl; [by rewrite app_nil_r|apply IH].
  - rewrite <- list_fmap_compose.
    induction tasks as [|tk tasks' IH]; simpl; [done|apply IH].
  - intros i ev Hin. by apply elem_of_nil in Hin.
  - apply list_lookup_fmap_Some in H as (tk' & ? & ?). by simplify_eq.
  - apply list_lookup_fmap_Some in H as (tk' & ? & ?). by simplify_eq.
  - apply list_lookup_fmap_Some in H as (tk' & ? & ?). by simplify_eq.
  - apply list_lookup_fmap_Some in H as (tk' & ? & ?). by simplify_eq.
Qed.

Lemma inv_step hosts tasks tr s W i ev s' :
  inv hosts tasks tr s → step W i s = Some (ev, s') →
  inv hosts tasks (tr ++ [(i, ev)]) s'.
Proof.
  intros (Htasks & Hcap & Hperm & Hrec & Hlock & Hrange & Hthreads) Hstep.
  apply step_inv in Hstep as (tk & p & p' & Hi & Hth' & Hts).
  destruct (thread_step_local _ _ _ _ _ _ _ Hts)
    as (Hcap' & Hpool & Hheld & Hrecs & Hpend & Hran & Hnopanic).
  destruct (insert_middle (threads s) i (tk, p) (tk, p') Hi) as (l1 & l2 & Hl & Hl').
  rewrite <- Hth' in Hl'.
  destruct (Hthreads i tk p Hi) as (Hrs & Happ & Hout & _).
  split; [|split; [|split; [|split; [|split; [|split]]]]].
  - rewrite <- Htasks, Hl, Hl'. by rewrite !fmap_app.
  - congruence.
  - rewrite <- Hperm. unfold borrowed. rewrite Hl, Hl'.
    rewrite !fmap_app, !concat_app. simpl.
    destruct ev; simpl in *; rewrite ?app_nil_r in *; simplify_eq.
    + by rewrite Hpool, Hheld.
    + rewrite <- Hpool, <- Hheld, <- !app_assoc. simpl.
      by rewrite <- !Permutation_middle.
    + rewrite Hheld, Hpool, <- !app_assoc. simpl.
      by rewrite <- !Permutation_middle.
    + by rewrite Hpool, Hheld.
    + by rewrite Hpool, Hheld.
  - unfold all_appended. rewrite bind_app. simpl. rewrite app_nil_r.
    fold (all_appended tr). by rewrite <- Hrec.
  - rewrite Hl'. rewrite Hl in Hlock. revert Hlock Hts.
    rewrite !fmap_app, !list_sum_app.
    destruct s' as [m' th']. simpl. clear. intros Hlock Hts.
    destruct p as [r|hs|hs r|hs r|hs|[|h rest]| |msg]; simpl in Hts;
      repeat case_match; simplify_eq; simpl in *; try lia.
    all: destruct (lock (mem s)); simpl in *; lia.
  - intros j ev' Hin. apply elem_of_app in Hin as [Hin|Hin]; [by eapply Hrange|].
    apply list_elem_of_singleton in Hin as [= -> ->].
    rewrite <- Htasks, length_fmap. by eapply lookup_lt_Some.
  - intros j tk' q Hj. rewrite Hth' in Hj.
    unfold thread_inv, received, sent, appended, outcomes.
    rewrite !events_of_snoc.
    destruct (decide (i = j)) as [->|Hne].
    + rewrite list_lookup_insert_eq in Hj by (by eapply lookup_lt_Some).
      simplify_eq. rewrite !bind_app. simpl. rewrite !app_nil_r.
      fold (received j tr) (sent j tr) (appended j tr) (outcomes j tr).
      split; [|split; [|split]].
      * by rewrite Hrs, <- !app_assoc, Hheld.
      * unfold records_of. rewrite bind_app. fold (records_of tk' (outcomes j tr)).
        rewrite <- Happ, <- !app_assoc. f_equal. done.
      * rewrite length_app, Hout. lia.
      * done.
    + rewrite list_lookup_insert_ne in Hj by done.
      rewrite !app_nil_r. by apply Hthreads.
Qed.

Lemma exec_inv hosts tasks tr s :
  exec (init hosts tasks) tr s → inv hosts tasks tr s.
Proof.
  induction 1 as [|tr s W i ev s' _ IH Hstep]; [apply inv_init|].
  by eapply inv_step.
Qed.

(** *** A goroutine running without interference *)

(** [k] consecutive actions of [requireN(n)], with the hosts received on
    the way. *)
Fixpoint requireN_run (n : Z) (k : nat) (pc : require_pc) (banker : bool)
    (pool : list HostSpec)
  : option (require_pc * bool * list HostSpec * list HostSpec) :=
  match k with
  | O => Some (pc, banker, pool, [])
  | S k =>
      match requireN_step n pc banker pool with
      | None => None
      | Some (pc1, banker1, pool1, got) =>
          match requireN_run n k pc1 banker1 pool1 with
          | None => None
          | Some (pc2, banker2, pool2, gots) =>
              Some (pc2, banker2, pool2, from_option (λ h, [h]) [] got ++ gots)
          end
      end
  end.

(** [k] consecutive actions of one goroutine. *)
Fixpoint thread_run (W : World) (tk : task) (k : nat) (p : pc) (m : shared)
  : option (list event * pc * shared) :=
  match k with
  | O => Some ([], p, m)
  | S k =>
      match thread_step W tk p m with
      | None => None
      | Some (ev, p1, m1) =>
          match thread_run W tk k p1 m1 with
          | None => None
          | Some (evs, p2, m2) => Some (ev :: evs, p2, m2)
          end
      end
  end.

Lemma requireN_run_add n k1 k2 pc banker pool :
  requireN_run n (k1 + k2) pc banker pool
  = match requireN_run n k1 pc banker pool with
    | None => None
    | Some (pc1, banker1, pool1, gots1) =>
        match requireN_run n k2 pc1 banker1 pool1 with
        | None => None
        | Some (pc2, banker2, pool2, gots2) =>
            Some (pc2, banker2, pool2, gots1 ++ gots2)
        end
    end.
Proof.
  revert pc banker pool.
  induction k1 as [|k1 IH]; intros pc banker pool; simpl.
  - by destruct (requireN_run n k2 pc banker pool) as [[[[??]?]?]|].
  - destruct (requireN_step n pc banker pool) as [[[[pc1 b1] pool1] got]|]; [|done].
    rewrite IH.
    destruct (requireN_run n k1 pc1 b1 pool1) as [[[[pc2 b2] pool2] gots]|]; [|done].
    destruct (requireN_run n k2 pc2 b2 pool2) as [[[[pc3 b3] pool3] gots']|]; [|done].
    by rewrite app_assoc.
Qed.

Lemma thread_run_add W tk k1 k2 p m :
  thread_run W tk (k1 + k2) p m
  = match thread_run W tk k1 p m with
    | None => None
    | Some (evs1, p1, m1) =>
        match thread_run W tk k2 p1 m1 with
        | None => None
        | Some (evs2, p2, m2) => Some (evs1 ++ evs2, p2, m2)
        end
    end.
Proof.
  revert p m. induction k1 as [|k1 IH]; intros p m; simpl.
  - by destruct (thread_run W tk k2 p m) as [[[??]?]|].
  - destruct (thread_step W tk p m) as [[[ev p1] m1]|]; [|done].
    rewrite IH.
    destruct (thread_run W tk k1 p1 m1) as [[[evs1 p2] m2]|]; [|done].
    by destruct (thread_run W tk k2 p2 m2) as [[[evs2 p3] m3]|].
Qed.

(** The loop [for i := 0; i < n; i++ { hs = append(hs, <-pool) }] over a
    pool that holds enough. *)
Lemma requireN_run_take n banker front : ∀ hs i back,
  i + Z.of_nat (length front) ≤ n →
  requireN_run n (length front) (at_take hs i) banker (front ++ back)
  = Some (at_take (hs ++ front) (i + Z.of_nat (length front)), banker, back, front).
Proof.
  induction front as [|h front IH]; intros hs i back Hle.
  - simpl. by rewrite app_nil_r, Z.add_0_r.
  - cbn [length] in *. rewrite Nat2Z.inj_succ in *.
    cbn [requireN_run requireN_step app].
    destruct (Z.ltb_spec i n) as [_|?]; [|lia].
    rewrite IH by lia. rewrite <- app_assoc. simpl.
    by replace (i + 1 + Z.of_nat (length front))
      with (i + Z.succ (Z.of_nat (length front))) by lia.
Qed.

Lemma requireN_returns n pool :
  1 ≤ n ≤ Z.of_nat (length pool) →
  requireN_run n (Z.to_nat n + 4) at_Lock false pool
  = Some (returning (take (Z.to_nat n) pool), false, drop (Z.to_nat n) pool,
          take (Z.to_nat n) pool).
Proof.
  intros Hn.
  set (front := take (Z.to_nat n) pool). set (back := drop (Z.to_nat n) pool).
  assert (length front = Z.to_nat n) as Hlen by (unfold front; rewrite length_take; lia).
  replace (Z.to_nat n + 4)%nat with (S (S (S (length front + 1)))) by lia.
  cbn [requireN_run requireN_step].
  destruct (Z.leb_spec n (Z.of_nat (length pool))) as [_|?]; [|lia].
  rewrite requireN_run_add.
  rewrite <- (take_drop (Z.to_nat n) pool) at 1. fold front back.
  rewrite requireN_run_take by lia. simpl.
  destruct (Z.ltb_spec (0 + Z.of_nat (length front)) n) as [?|_]; [lia|].
  destruct front as [|h front']; [simpl in Hlen; lia|].
  by rewrite app_nil_r.
Qed.

(** The positions of a requester that only polls, with the state of
    [banker] that goes with each when no one else touches the mutex. *)
Definition polling (pc : require_pc) (banker : bool) : Prop :=
  match pc with
  | at_Lock | at_check | at_tick => banker = false
  | at_Unlock => banker = true
  | at_take hs i => hs = [] ∧ 0 ≤ i ∧ banker = false
  | returning _ => False
  end.

Lemma requireN_step_polling n pc banker pool :
  Z.of_nat (length pool) < n ∨ n ≤ 0 →
  (n ≤ 0 ∨ ∀ hs i, pc ≠ at_take hs i) →
  polling pc banker →
  ∃ pc' banker',
    requireN_step n pc banker pool = Some (pc', banker', pool, None)
    ∧ polling pc' banker'
    ∧ (n ≤ 0 ∨ ∀ hs i, pc' ≠ at_take hs i).
Proof.
  intros Hn Htake Hpoll.
  destruct pc as [| | |hs i| |hs]; simpl in *; subst.
  - eexists _, _. split; [done|]. split; [done|]. by right.
  - eexists _, _. split; [done|]. split; [done|]. by right.
  - destruct (Z.leb_spec n (Z.of_nat (length pool))).
    + eexists _, _. split; [done|]. split; [done|]. left. lia.
    + eexists _, _. split; [done|]. split; [done|]. by right.
  - destruct Hpoll as (-> & Hi & ->).
    destruct Htake as [Hn0|Hne]; [|by destruct (Hne [] i)].
    destruct (Z.ltb_spec i n); [lia|].
    eexists _, _. split; [done|]. split; [done|]. by right.
  - eexists _, _. split; [done|]. split; [done|]. by right.
  - done.
Qed.

Lemma requireN_run_polling n pool k : ∀ pc banker,
  Z.of_nat (length pool) < n ∨ n ≤ 0 →
  (n ≤ 0 ∨ ∀ hs i, pc ≠ at_take hs i) →
  polling pc banker →
  ∃ pc' banker',
    requireN_run n k pc banker pool = Some (pc', banker', pool, [])
    ∧ polling pc' banker'.
Proof.
  induction k as [|k IH]; intros pc banker Hn Htake Hpoll; simpl.
  - by eexists _, _.
  - destruct (requireN_step_polling n pc banker pool Hn Htake Hpoll)
      as (pc1 & b1 & -> & Hpoll1 & Htake1).
    destruct (IH pc1 b1 Hn Htake1 Hpoll1) as (pc2 & b2 & -> & Hpoll2).
    by eexists _, _.
Qed.

(** One round of polling: lock, unlock, failed test, tick. *)
Lemma requireN_poll_round n pool :
  Z.of_nat (length pool) < n →
  requireN_run n 4 at_Lock false pool = Some (at_Lock, false, pool, []).
Proof.
  intros Hn. simpl.
  by destruct (Z.leb_spec n (Z.of_nat (length pool))) as [?|_]; [lia|].
Qed.

(** X18: [requireN(n)] with no other goroutine acting in between: for
    [1 ≤ n ≤ len(pool)] it returns after [n + 4] actions with the [n]
    oldest hosts of the pool, which loses exactly these; while the pool
    holds fewer than [n] hosts it removes nothing and goes round lock,
    unlock, test and tick, never returning. *)
Theorem requireN_alone_spec (n : Z) (pool : list HostSpec) :
  (1 ≤ n ≤ Z.of_nat (length pool) →
     ∃ hs pool',
       requireN_run n (Z.to_nat n + 4) at_Lock false pool
       = Some (returning hs, false, pool', hs)
       ∧ Z.of_nat (length hs) = n
       ∧ pool = hs ++ pool')
  ∧ (Z.of_nat (length pool) < n →
     requireN_run n 4 at_Lock false pool = Some (at_Lock, false, pool, [])
     ∧ ∀ k, ∃ pc banker,
         requireN_run n k at_Lock false pool = Some (pc, banker, pool, [])
         ∧ ∀ hs, pc ≠ returning hs).
Proof.
  split.
  - intros Hn. eexists _, _. split; [by apply requireN_returns|].
    split; [rewrite length_take; lia|by rewrite take_drop].
  - intros Hn. split; [by apply requireN_poll_round|].
    intros k.
    destruct (requireN_run_polling n pool k at_Lock false) as (pc & b & Hrun & Hpoll);
      [by left|by right|done|].
    exists pc, b. split; [done|]. by intros hs ->.
Qed.

(** *** Progress after [requireN] *)

(** The goroutine has its hosts and is not over. *)
Definition past_requireN (p : pc) : Prop :=
  match p with
  | in_requireN _ | finished | panicked _ => False
  | _ => True
  end.

(** The actions a goroutine past [requireN] still has to perform, at
    most. *)
Definition to_go (p : pc) : nat :=
  match p with
  | at_runExperiment hs => 5 + length hs
  | at_lock_Lock hs _ => 4 + length hs
  | at_append hs _ => 3 + length hs
  | at_lock_Unlock hs => 2 + length hs
  | at_returnAll rest => 1 + length rest
  | _ => 0
  end.

Lemma thread_step_to_go W tk p m ev p' m' :
  thread_step W tk p m = Some (ev, p', m') → past_requireN p →
  (to_go p' < to_go p)%nat ∧ (past_requireN p' ∨ p' = finished).
Proof.
  intros Hstep Hpast.
  destruct p as [r|hs|hs r|hs r|hs|[|h rest]| |msg]; simpl in *; try done.
  - pose proof (runExperiment_never_panics W hs tk.1 tk.2) as Hp.
    destruct (runExperiment W hs tk.1 tk.2) as [res|e|msg]; simplify_eq; simpl.
    + split; [lia|by left].
    + split; [lia|by left].
    + by destruct (Hp msg).
  - destruct (lock m); simplify_eq; simpl. split; [lia|by left].
  - simplify_eq; simpl. split; [lia|by left].
  - simplify_eq; simpl. split; [lia|by left].
  - simplify_eq; simpl. split; [lia|by right].
  - case_match; simplify_eq; simpl. split; [lia|by left].
Qed.

Lemma list_sum_pos {A} (f : A → nat) (l : list A) :
  (0 < list_sum (f <$> l))%nat → ∃ j x, l !! j = Some x ∧ (0 < f x)%nat.
Proof.
  induction l as [|x l IH]; [simpl; lia|]. intros Hpos.
  change (0 < f x + list_sum (f <$> l))%nat in Hpos.
  destruct (decide (0 < f x)%nat) as [?|?].
  - by exists 0%nat, x.
  - destruct IH as (j & y & ? & ?); [lia|]. by exists (S j), y.
Qed.

Lemma held_le_borrowed s i tk p :
  threads s !! i = Some (tk, p) → (length (held p) ≤ length (borrowed s))%nat.
Proof.
  intros Hi. unfold borrowed.
  rewrite <- (take_drop_middle _ _ _ Hi), fmap_app, concat_app. simpl.
  rewrite !length_app. lia.
Qed.

(** A goroutine past [requireN] can always act, except while it waits for
    [lock] and another goroutine is between [Lock] and [Unlock]. *)
Lemma past_requireN_enabled hosts tasks tr s W i tk p :
  inv hosts tasks tr s → threads s !! i = Some (tk, p) → past_requireN p →
  is_Some (thread_step W tk p (mem s))
  ∨ ∃ hs r j tk' p',
      p = at_lock_Lock hs r ∧ j ≠ i
      ∧ threads s !! j = Some (tk', p') ∧ critical p' = 1%nat.
Proof.
  intros (_ & Hcap & Hperm & _ & Hlock & _ & _) Hi Hpast.
  destruct p as [r|hs|hs r|hs r|hs|[|h rest]| |msg]; simpl in *; try done;
    try (by left).
  - destruct (lock (mem s)) eqn:Hl; [|by left]. right.
    destruct (list_sum_pos (λ t, critical t.2) (threads s)) as (j & [tk' p'] & Hj & Hc);
      [lia|].
    exists hs, r, j, tk', p'. split; [done|]. split.
    + intros ->. rewrite Hi in Hj. simplify_eq. simpl in Hc. lia.
    + split; [done|]. simpl in Hc. destruct p'; simpl in *; lia.
  - left. apply Permutation_length in Hperm. rewrite length_app in Hperm.
    pose proof (held_le_borrowed s i tk _ Hi) as Hle. simpl in Hle.
    destruct (Nat.ltb_spec (length (pool (mem s))) (capacity (mem s))); [done|lia].
Qed.

(** The deferred [returnAll(hs)] and [wg.Done()]. *)
Lemma thread_run_returnAll W tk rest : ∀ m,
  (length (pool m) + length rest ≤ capacity m)%nat →
  thread_run W tk (length rest + 1) (at_returnAll rest) m
  = Some ((ev_send <$> rest) ++ [ev_silent], finished,
          {| pool := pool m ++ rest; capacity := capacity m; banker := banker m;
             lock := lock m; records := records m |}).
Proof.
  induction rest as [|h rest IH]; intros m Hle; simpl.
  - destruct m. simpl. by rewrite app_nil_r.
  - simpl in Hle.
    destruct (Nat.ltb_spec (length (pool m)) (capacity m)); [|lia].
    rewrite IH by (simpl; rewrite length_app; simpl; lia).
    simpl. by rewrite <- app_assoc.
Qed.

(** From the call of [runExperiment] to the end, on both outcomes. *)
Lemma thread_run_epilogue W tk hs m :
  lock m = false → (length (pool m) + length hs ≤ capacity m)%nat →
  let out := runExperiment W hs tk.1 tk.2 in
  ∃ k evs,
    thread_run W tk k (at_runExperiment hs) m
    = Some (evs, finished,
            {| pool := pool m ++ hs; capacity := capacity m; banker := banker m;
               lock := false; records := records m ++ records_of tk [out] |})
    ∧ evs ≫= send_of = hs ∧ evs ≫= recv_of = [].
Proof.
  intros Hlock Hle out.
  assert (∀ l : list HostSpec,
    ((ev_send <$> l) ++ [ev_silent]) ≫= send_of = l
    ∧ ((ev_send <$> l) ++ [ev_silent]) ≫= recv_of = []) as Hsends.
  { intros l. rewrite !bind_app. simpl.
    induction l as [|h l [IH1 IH2]]; [done|].
    rewrite fmap_cons, !bind_cons. simpl. rewrite app_nil_r in *.
    by rewrite IH1, IH2. }
  pose proof (runExperiment_never_panics W hs tk.1 tk.2) as Hp.
  destruct (runExperiment W hs tk.1 tk.2) as [res|e|msg] eqn:Hout;
    [| |by destruct (Hp msg)].
  - exists (4 + (length hs + 1))%nat. eexists.
    cbn [Nat.add thread_run thread_step]. rewrite Hout.
    cbn [thread_run thread_step]. rewrite Hlock.
    cbn [thread_run thread_step].
    rewrite thread_run_returnAll by done.
    split; [done|]. simpl. apply Hsends.
  - exists (1 + (length hs + 1))%nat. eexists.
    cbn [Nat.add thread_run thread_step]. rewrite Hout.
    cbn [thread_run thread_step].
    rewrite thread_run_returnAll by done.
    split; [simpl; by rewrite app_nil_r, Hlock|]. simpl. apply Hsends.
Qed.

(** C2: at every point of every interleaving of the goroutines started on
    a pool filled with [hosts], the hosts out of the pool are no more than
    [hosts]: the pool and the borrowed hosts together are a rearrangement
    of [hosts]. *)
Theorem borrowed_never_exceeds_total (hosts : list HostSpec) (tasks : list task)
    (tr : trace) (s : state) :
  exec (init hosts tasks) tr s →
  (length (borrowed s) ≤ length hosts)%nat
  ∧ (length (pool (mem s)) + length (borrowed s) = length hosts)%nat
  ∧ pool (mem s) ++ borrowed s ≡ₚ hosts.
Proof.
  intros Hexec. apply exec_inv in Hexec as (_ & _ & Hperm & _).
  pose proof (Permutation_length Hperm) as Hlen. rewrite length_app in Hlen.
  split; [lia|]. by split.
Qed.

(** C3: in every interleaving, the hosts a goroutine has received are
    those it has sent back followed by those it still holds, so none is
    sent back twice and none is lost; once it is over it has sent back
    exactly what it received.  After [requireN] the goroutine is never
    blocked on the channel, whatever [runExperiment] returns: it can act,
    or it waits for [lock] while another goroutine is inside the locked
    region, and each of its actions brings it nearer to the end; run
    without interference from the call of [runExperiment] on, it ends
    having put exactly its hosts back. *)
Theorem borrowed_hosts_returned_once (hosts : list HostSpec) (tasks : list task)
    (tr : trace) (s : state) (i : nat) (tk : task) (p : pc) :
  exec (init hosts tasks) tr s →
  threads s !! i = Some (tk, p) →
  received i tr = sent i tr ++ held p
  ∧ (p = finished → sent i tr = received i tr)
  ∧ (past_requireN p → ∀ W,
       (∃ ev p' m',
           thread_step W tk p (mem s) = Some (ev, p', m')
           ∧ (to_go p' < to_go p)%nat
           ∧ (past_requireN p' ∨ p' = finished))
       ∨ (∃ hs r j tk' p',
             p = at_lock_Lock hs r ∧ j ≠ i
             ∧ threads s !! j = Some (tk', p') ∧ critical p' = 1%nat))
  ∧ (∀ hs W, p = at_runExperiment hs → lock (mem s) = false →
       ∃ k evs m',
         thread_run W tk k p (mem s) = Some (evs, finished, m')
         ∧ pool m' = pool (mem s) ++ hs
         ∧ evs ≫= send_of = hs).
Proof.
  intros Hexec Hi. apply exec_inv in Hexec as Hinv.
  destruct Hinv as (Htasks & Hcap & Hperm & Hrec & Hlock & Hrange & Hthreads).
  destruct (Hthreads i tk p Hi) as (Hrs & _).
  split; [done|]. split; [|split].
  - intros ->. simpl in Hrs. by rewrite app_nil_r in Hrs.
  - intros Hpast W.
    destruct (past_requireN_enabled hosts tasks tr s W i tk p) as [[x Hx]|Hwait];
      [by apply exec_inv|done|done| |by right].
    left. destruct x as [[ev p'] m']. exists ev, p', m'. split; [done|].
    by eapply thread_step_to_go.
  - intros hs W -> Hfree.
    destruct (thread_run_epilogue W tk hs (mem s) Hfree) as (k & evs & Hrun & Hs & _).
    + apply Permutation_length in Hperm. rewrite length_app in Hperm.
      pose proof (held_le_borrowed s i tk _ Hi) as Hle. simpl in Hle. lia.
    + eexists k, evs, _. split; [apply Hrun|]. by split.
Qed.

(** *** A goroutine run alone, as an execution of the whole *)

Lemma thread_run_requireN W tk k : ∀ r m r' banker' pool' gots,
  (∀ hs, r ≠ returning hs) →
  requireN_run (Z.of_nat (length tk.2)) k r (banker m) (pool m)
  = Some (r', banker', pool', gots) →
  ∃ evs,
    thread_run W tk k (in_requireN r) m
    = Some (evs,
            match r' with returning hs => at_runExperiment hs | _ => in_requireN r' end,
            {| pool := pool'; capacity := capacity m; banker := banker';
               lock := lock m; records := records m |})
    ∧ evs ≫= recv_of = gots.
Proof.
  induction k as [|k IH]; intros r m r' banker' pool' gots Hr Hrun; simpl in Hrun.
  - simplify_eq. exists []. split; [|done]. destruct m. simpl.
    destruct r'; try done. by destruct (Hr hs).
  - destruct (requireN_step _ r (banker m) (pool m))
      as [[[[r1 b1] pool1] got]|] eqn:Hstep; [|done].
    destruct (requireN_run _ k r1 b1 pool1) as [[[[r2 b2] pool2] gots2]|] eqn:Hrest;
      [|done].
    simplify_eq. cbn [thread_run thread_step]. rewrite Hstep.
    assert ((∃ hs, r1 = returning hs) ∨ ¬ ∃ hs, r1 = returning hs) as [[hs ->]|Hne].
    { destruct r1; try (by right; intros [? ?]). left. by eexists. }
    + destruct k as [|k]; simpl in Hrest; [|done]. simplify_eq.
      eexists. split; [done|]. simpl. rewrite app_nil_r. by destruct got.
    + set (m1 := {| pool := pool1; capacity := capacity m; banker := b1;
                    lock := lock m; records := records m |}).
      destruct (IH r1 m1 r' banker' pool' gots2) as (evs & Hevs & Hgots).
      { intros hs ->. apply Hne. by exists hs. }
      { done. }
      assert (match r1 with returning hs => at_runExperiment hs | _ => in_requireN r1 end
              = in_requireN r1) as ->.
      { destruct r1; try done. exfalso. apply Hne. by eexists. }
      rewrite Hevs. eexists. split; [done|].
      rewrite bind_cons, Hgots. by destruct got.
Qed.

Lemma run_schedule_app sched1 : ∀ sched2 s,
  run_schedule (sched1 ++ sched2) s
  = match run_schedule sched1 s with
    | None => None
    | Some (tr1, s1) =>
        match run_schedule sched2 s1 with
        | None => None
        | Some (tr2, s2) => Some (tr1 ++ tr2, s2)
        end
    end.
Proof.
  induction sched1 as [|[i W] sched1 IH]; intros sched2 s; simpl.
  - by destruct (run_schedule sched2 s) as [[??]|].
  - destruct (step W i s) as [[ev s1]|]; [|done]. rewrite IH.
    destruct (run_schedule sched1 s1) as [[tr1 s2]|]; [|done].
    by destruct (run_schedule sched2 s2) as [[tr2 s3]|].
Qed.

Lemma thread_run_schedule W i tk k : ∀ p m evs p' m' ths,
  ths !! i = Some (tk, p) →
  thread_run W tk k p m = Some (evs, p', m') →
  run_schedule (replicate k (i, W)) {| mem := m; threads := ths |}
  = Some (pair i <$> evs, {| mem := m'; threads := <[i := (tk, p')]> ths |}).
Proof.
  induction k as [|k IH]; intros p m evs p' m' ths Hi Hrun; simpl in *.
  - simplify_eq. simpl. by rewrite list_insert_id.
  - unfold step. simpl. rewrite Hi.
    destruct (thread_step W tk p m) as [[[ev p1] m1]|]; [|done].
    destruct (thread_run W tk k p1 m1) as [[[evs1 p2] m2]|] eqn:Hrest; [|done].
    simplify_eq.
    rewrite (IH p1 m1 evs1 p' m' (<[i := (tk, p1)]> ths)); [|by apply list_lookup_insert_eq, lookup_lt_Some with (tk, p)|done].
    by rewrite list_insert_insert_eq.
Qed.

Definition starting (tasks : list task) : list (task * pc) :=
  (λ tk, (tk, in_requireN at_Lock)) <$> tasks.
Definition ended (tasks : list task) : list (task * pc) :=
  (λ tk, (tk, finished)) <$> tasks.

(** One goroutine from start to end while the others stand still, on a
    full pool with both mutexes free. *)
Lemma run_one_goroutine W i tk ths m :
  ths !! i = Some (tk, in_requireN at_Lock) →
  banker m = false → lock m = false → length (pool m) = capacity m →
  (1 ≤ length tk.2 ≤ capacity m)%nat →
  ∃ k tr m',
    run_schedule (replicate k (i, W)) {| mem := m; threads := ths |}
    = Some (tr, {| mem := m'; threads := <[i := (tk, finished)]> ths |})
    ∧ banker m' = false ∧ lock m' = false
    ∧ length (pool m') = capacity m' ∧ capacity m' = capacity m.
Proof.
  intros Hi Hbanker Hlock Hfull Hn.
  set (n := length tk.2).
  pose proof (requireN_returns (Z.of_nat n) (pool m)) as Hreq.
  rewrite Nat2Z.id in Hreq.
  destruct (thread_run_requireN W tk (n + 4) at_Lock m _ _ _ _ ltac:(done)
              ltac:(rewrite Hbanker; apply Hreq; lia)) as (evs1 & Hrun1 & _).
  set (m1 := {| pool := drop n (pool m); capacity := capacity m; banker := false;
                lock := lock m; records := records m |}) in Hrun1.
  destruct (thread_run_epilogue W tk (take n (pool m)) m1) as (k2 & evs2 & Hrun2 & _).
  { done. }
  { simpl. rewrite length_take, length_drop. lia. }
  exists (n + 4 + k2)%nat. eexists. eexists.
  rewrite replicate_add, run_schedule_app.
  rewrite (thread_run_schedule W i tk _ _ _ _ _ _ ths Hi Hrun1).
  rewrite (thread_run_schedule W i tk _ _ _ _ _ _ _
             ltac:(by apply list_lookup_insert_eq, lookup_lt_Some with (tk, in_requireN at_Lock))
             Hrun2).
  rewrite list_insert_insert_eq. split; [done|]. simpl.
  rewrite !length_app, length_take, length_drop. repeat split; lia.
Qed.

(** The goroutines one after the other, the cluster answering goroutine
    [i] as [Ws i]. *)
Lemma run_in_sequence (Ws : nat → World) (rest : list task) : ∀ done m,
  banker m = false → lock m = false → length (pool m) = capacity m →
  Forall (λ tk : task, (1 ≤ length tk.2 ≤ capacity m)%nat) rest →
  ∃ sched tr m',
    run_schedule ((λ i, (i, Ws i)) <$> sched)
      {| mem := m; threads := done ++ starting rest |}
    = Some (tr, {| mem := m'; threads := done ++ ended rest |}).
Proof.
  induction rest as [|tk rest IH]; intros done m Hbanker Hlock Hfull Hn.
  - by exists [], [], m.
  - apply Forall_cons in Hn as [Hn Hrest].
    destruct (run_one_goroutine (Ws (length done)) (length done) tk
                (done ++ starting (tk :: rest)) m)
      as (k & tr1 & m1 & Hrun1 & Hb1 & Hl1 & Hf1 & Hc1); try done.
    { by apply list_lookup_middle. }
    destruct (IH (done ++ [(tk, finished)]) m1) as (sched & tr2 & m2 & Hrun2);
      try done.
    { by rewrite Hc1. }
    exists (replicate k (length done) ++ sched). eexists. exists m2.
    rewrite fmap_app, fmap_replicate, run_schedule_app, Hrun1.
    replace (<[length done := (tk, finished)]> (done ++ starting (tk :: rest)))
      with ((done ++ [(tk, finished)]) ++ starting rest).
    + rewrite Hrun2. simpl. by rewrite <- app_assoc.
    + rewrite <- app_assoc. simpl.
      replace (length done) with (length done + 0)%nat at 1 by lia.
      by rewrite insert_app_r.
Qed.

Lemma spawned_bounds hosts :
  Forall (λ tk : task, (1 ≤ length tk.2 ≤ length hosts)%nat) (spawned hosts).
Proof.
  apply Forall_forall. intros tk Hin. unfold spawned in Hin.
  apply list_elem_of_bind in Hin as (a & Hin & _).
  apply list_elem_of_bind in Hin as (p & Hin & Hp).
  destruct (Nat.ltb_spec (length hosts) (length p)) as [?|Hle].
  - by apply elem_of_nil in Hin.
  - apply list_elem_of_singleton in Hin as ->. simpl. split; [|done].
    unfold partitions in Hp.
    repeat (apply elem_of_cons in Hp as [->|Hp]; [simpl; lia|]).
    by apply elem_of_nil in Hp.
Qed.

(** *** Reading a trace *)

Lemma elem_of_events_of i ev tr : ev ∈ events_of i tr ↔ (i, ev) ∈ tr.
Proof.
  unfold events_of. rewrite list_elem_of_omap. split.
  - intros ([j ev'] & Hin & Heq). simpl in Heq. case_decide; by simplify_eq.
  - intros Hin. exists (i, ev). split; [done|]. simpl. by rewrite decide_True.
Qed.

Lemma elem_of_outcomes i out tr :
  out ∈ outcomes i tr ↔ (i, ev_experiment out) ∈ tr.
Proof.
  unfold outcomes. rewrite list_elem_of_bind, <- elem_of_events_of. split.
  - intros (ev & Hin & Hev). destruct ev; simpl in Hin;
      try (by apply elem_of_nil in Hin).
    by apply list_elem_of_singleton in Hin as ->.
  - intros Hin. exists (ev_experiment out). split; [|done]. simpl. by left.
Qed.

Lemma elem_of_appended i r tr :
  r ∈ appended i tr ↔ (i, ev_append r) ∈ tr.
Proof.
  unfold appended. rewrite list_elem_of_bind, <- elem_of_events_of. split.
  - intros (ev & Hin & Hev). destruct ev; simpl in Hin;
      try (by apply elem_of_nil in Hin).
    by apply list_elem_of_singleton in Hin as ->.
  - intros Hin. exists (ev_append r). split; [|done]. simpl. by left.
Qed.

Lemma elem_of_all_appended r tr :
  r ∈ all_appended tr ↔ ∃ i, (i, ev_append r) ∈ tr.
Proof.
  unfold all_appended. rewrite list_elem_of_bind. split.
  - intros ([i ev] & Hin & Hev). destruct ev; simpl in Hin;
      try (by apply elem_of_nil in Hin).
    apply list_elem_of_singleton in Hin as ->. by exists i.
  - intros [i Hin]. exists (i, ev_append r). split; [|done]. simpl. by left.
Qed.

Lemma elem_of_records_of tk r outs :
  r ∈ records_of tk outs ↔ ∃ res, ok res ∈ outs ∧ r = mkRecord tk.2 tk.1 res.
Proof.
  unfold records_of. rewrite list_elem_of_bind. split.
  - intros (out & Hin & Hout). destruct out as [res| |]; simpl in Hin;
      try (by apply elem_of_nil in Hin).
    apply list_elem_of_singleton in Hin as ->. by exists res.
  - intros (res & Hin & ->). exists (ok res). split; [|done]. simpl. by left.
Qed.

Lemma length_records_of tk outs :
  (length (records_of tk outs) ≤ length outs)%nat.
Proof.
  induction outs as [|out outs IH]; [done|].
  unfold records_of in *. rewrite bind_cons, length_app.
  destruct out; simpl; lia.
Qed.

(** The goroutine behind an event of the trace. *)
Lemma exec_thread_of_event hosts tasks tr s i ev :
  exec (init hosts tasks) tr s → (i, ev) ∈ tr →
  ∃ tk p, tasks !! i = Some tk ∧ threads s !! i = Some (tk, p)
          ∧ thread_inv tr i tk p.
Proof.
  intros Hexec Hin. apply exec_inv in Hexec.
  destruct Hexec as (Htasks & _ & _ & _ & _ & Hrange & Hthreads).
  specialize (Hrange i ev Hin). rewrite <- Htasks, length_fmap in Hrange.
  destruct (lookup_lt_is_Some_2 (threads s) i Hrange) as [[tk p] Hi].
  exists tk, p. split; [|split; [done|by apply Hthreads]].
  by rewrite <- Htasks, list_lookup_fmap, Hi.
Qed.

(** X19: a failed experiment leaves no record.  A call of
    [runExperiment] fails, with the error at hand, when [reschedule]
    fails, when the plan builder fails, and when the remote run returns
    an error (a timeout, a transport failure), whatever was printed; it
    succeeds only when all three do.  A failing call changes nothing but
    the goroutine's own position, which goes on to hand its hosts back
    without ever being blocked.  In every interleaving no goroutine
    crashes, the goroutine of a failed experiment appends nothing, every
    record of the log is the record of a goroutine whose [runExperiment]
    succeeded, with that goroutine's own result, and when all goroutines
    are over every successful experiment is in the log.  However the
    cluster answers each goroutine, the sweep has an interleaving in
    which [wg.Wait()] returns. *)
Theorem experiment_failures_are_isolated (hosts : list HostSpec) :
  (∀ tasks tr s, exec (init hosts tasks) tr s →
     records (mem s) = all_appended tr
     ∧ (∀ i tk p msg, threads s !! i = Some (tk, p) → p ≠ panicked msg)
     ∧ (∀ i e r, (i, ev_experiment (err e)) ∈ tr → (i, ev_append r) ∉ tr)
     ∧ (∀ r, r ∈ records (mem s) →
          ∃ i tk res, tasks !! i = Some tk
                      ∧ (i, ev_experiment (ok res)) ∈ tr
                      ∧ r = mkRecord tk.2 tk.1 res)
     ∧ (all_finished s → ∀ i tk res,
          tasks !! i = Some tk → (i, ev_experiment (ok res)) ∈ tr →
          mkRecord tk.2 tk.1 res ∈ records (mem s))
     ∧ (∀ i tk rest W, threads s !! i = Some (tk, at_returnAll rest) →
          is_Some (thread_step W tk (at_returnAll rest) (mem s))))
  ∧ (∀ W tk hs m e, runExperiment W hs tk.1 tk.2 = err e →
       thread_step W tk (at_runExperiment hs) m
       = Some (ev_experiment (err e), at_returnAll hs, m))
  ∧ (∀ W hs algo partition,
       (∀ e, reschedule hs partition = err e →
             runExperiment W hs algo partition = err e)
       ∧ (∀ workers ps e,
            reschedule hs partition = ok workers →
            CreateProcs W {| TaskCount := TotalCap workers;
                             HostList := fmtHostSpecs workers;
                             Prog := prog; Args := args |} algo = (ps, Some e) →
            runExperiment W hs algo partition = err e)
       ∧ (∀ workers ps results e,
            reschedule hs partition = ok workers →
            CreateProcs W {| TaskCount := TotalCap workers;
                             HostList := fmtHostSpecs workers;
                             Prog := prog; Args := args |} algo = (ps, None) →
            RemoteRunAll W timeout user ps verboseLog = (results, Some e) →
            runExperiment W hs algo partition = err e)
       ∧ (∀ res, runExperiment W hs algo partition = ok res →
            ∃ workers ps results,
              reschedule hs partition = ok workers
              ∧ CreateProcs W {| TaskCount := TotalCap workers;
                                 HostList := fmtHostSpecs workers;
                                 Prog := prog; Args := args |} algo = (ps, None)
              ∧ RemoteRunAll W timeout user ps verboseLog = (results, None)))
  ∧ (∀ Ws : nat → World, ∃ sched tr s,
       run_schedule ((λ i, (i, Ws i)) <$> sched) (init hosts (spawned hosts))
       = Some (tr, s)
       ∧ all_finished s).
Proof.
  split; [|split; [|split]].
  - intros tasks tr s Hexec. pose proof (exec_inv _ _ _ _ Hexec) as Hinv.
    destruct Hinv as (Htasks & _ & _ & Hrec & _ & Hrange & Hthreads).
    split; [done|]. split; [|split; [|split; [|split]]].
    + intros i tk p msg Hi. by apply (Hthreads i tk p Hi).
    + intros i e r Hfail Happ.
      destruct (exec_thread_of_event _ _ _ _ _ _ Hexec Hfail)
        as (tk & p & _ & _ & _ & Hrecs & Hran & _).
      apply elem_of_outcomes in Hfail. apply elem_of_appended in Happ.
      assert (outcomes i tr = [err e]) as Hout.
      { destruct (outcomes i tr) as [|out [|out' outs]].
        - by apply elem_of_nil in Hfail.
        - by apply list_elem_of_singleton in Hfail as ->.
        - simpl in Hran. destruct p; simpl in Hran; lia. }
      rewrite Hout in Hrecs. simpl in Hrecs.
      apply app_eq_nil in Hrecs as [Hnil _]. rewrite Hnil in Happ.
      by apply elem_of_nil in Happ.
    + intros r Hr. rewrite Hrec in Hr. apply elem_of_all_appended in Hr as [i Happ].
      destruct (exec_thread_of_event _ _ _ _ _ _ Hexec Happ)
        as (tk & p & Htk & _ & _ & Hrecs & _).
      apply elem_of_appended in Happ.
      assert (r ∈ records_of tk (outcomes i tr)) as Hin.
      { rewrite <- Hrecs. apply elem_of_app. by left. }
      apply elem_of_records_of in Hin as (res & Hres & ->).
      exists i, tk, res. split; [done|]. split; [|done].
      by apply elem_of_outcomes.
    + intros Hfin i tk res Htk Hok. rewrite Hrec.
      apply elem_of_all_appended. exists i.
      destruct (exec_thread_of_event _ _ _ _ _ _ Hexec Hok)
        as (tk' & p & Htk' & Hi & _ & Hrecs & _).
      assert (Some tk' = Some tk) as [= ->] by (rewrite <- Htk'; exact Htk).
      assert (p = finished) as ->.
      { unfold all_finished in Hfin. rewrite Forall_lookup in Hfin.
        apply (Hfin i (tk, p) Hi). }
      simpl in Hrecs. rewrite app_nil_r in Hrecs.
      apply elem_of_appended. rewrite Hrecs. apply elem_of_records_of.
      exists res. split; [|done]. by apply elem_of_outcomes.
    + intros i tk rest W Hi.
      destruct (past_requireN_enabled hosts tasks tr s W i tk _ (exec_inv _ _ _ _ Hexec) Hi)
        as [?|(? & ? & ? & ? & ? & ? & _)]; done.
  - intros W tk hs m e Hout. simpl. by rewrite Hout.
  - intros W hs algo partition. unfold runExperiment, utils_Measure.
    split; [|split; [|split]].
    + by intros e ->.
    + by intros workers ps e -> ->.
    + by intros workers ps results e -> -> ->.
    + intros res Hok.
      destruct (reschedule hs partition) as [workers|e|msg]; [|done|done].
      destruct (CreateProcs W _ algo) as [ps [e|]] eqn:Hps; [done|].
      destruct (RemoteRunAll W timeout user ps verboseLog) as [results [e|]] eqn:Hrun;
        [done|].
      by exists workers, ps, results.
  - intros Ws.
    destruct (run_in_sequence Ws (spawned hosts) [] (mem (init hosts (spawned hosts))))
      as (sched & tr & m' & Hrun); try done.
    { apply spawned_bounds. }
    exists sched, tr, {| mem := m'; threads := ended (spawned hosts) |}.
    split; [apply Hrun|].
    unfold all_finished, ended. simpl. apply Forall_fmap. by apply Forall_true.
Qed.

(** C6, amended: when [reschedule] and the plan builder succeed, the remote
    run returns no error and no captured line contains
    ["Img/sec per /gpu:0"], [runExperiment] returns no error but the zero
    [Result]; the goroutine then takes [lock] and appends a record with
    mean 0 and confidence interval 0 to the log, and goes on without
    crashing. *)
Theorem missing_pattern_is_recorded_as_zero (W : World) (tk : task)
    (hs workers : list HostSpec) (ps : list Proc) (results : list RunResult)
    (m : shared) :
  reschedule hs tk.2 = ok workers →
  CreateProcs W {| TaskCount := TotalCap workers; HostList := fmtHostSpecs workers;
                   Prog := prog; Args := args |} tk.1 = (ps, None) →
  RemoteRunAll W timeout user ps verboseLog = (results, None) →
  (∀ r line, r ∈ results → line ∈ Stdout r →
             strings_Contains line "Img/sec per /gpu:0" = false) →
  lock m = false →
  runExperiment W hs tk.1 tk.2 = ok zero_Result
  ∧ thread_run W tk 3 (at_runExperiment hs) m
    = Some ([ev_experiment (ok zero_Result); ev_silent;
             ev_append (mkRecord tk.2 tk.1 zero_Result)],
            at_lock_Unlock hs,
            {| pool := pool m; capacity := capacity m; banker := banker m;
               lock := true;
               records := records m ++ [mkRecord tk.2 tk.1 zero_Result] |}).
Proof.
  intros Hres Hps Hrun Hno Hlock.
  assert (runExperiment W hs tk.1 tk.2 = ok zero_Result) as Hout.
  { unfold runExperiment, utils_Measure. rewrite Hres, Hps, Hrun.
    by rewrite scrape_no_match. }
  split; [done|].
  cbn [thread_run thread_step]. rewrite Hout.
  cbn [thread_run thread_step]. rewrite Hlock. done.
Qed.

(** *** The gate that guards nothing *)

(** A requester that stays inside [requireN] for as long as the pool is
    empty: it polls, or it is in the middle of the take loop. *)
Definition waiting (n : Z) (r : require_pc) : Prop :=
  match r with
  | at_take hs i => i < n ∨ hs = []
  | returning _ => False
  | _ => True
  end.

(** The pool is empty and every goroutine is such a requester. *)
Definition starved (s : state) : Prop :=
  pool (mem s) = []
  ∧ Forall (λ t : task * pc,
      ∃ r, t.2 = in_requireN r ∧ waiting (Z.of_nat (length t.1.2)) r) (threads s).

Lemma starved_step W i s ev s' :
  starved s → step W i s = Some (ev, s') →
  starved s'
  ∧ ∀ j tk hs k, threads s !! j = Some (tk, in_requireN (at_take hs k)) →
      k < Z.of_nat (length tk.2) → threads s' !! j = threads s !! j.
Proof.
  intros [Hpool Hall] Hstep.
  apply step_inv in Hstep as (tk & p & p' & Hi & Hth' & Hts).
  rewrite Forall_lookup in Hall.
  destruct (Hall i (tk, p) Hi) as (r & Hp & Hw). simpl in Hp, Hw. subst p.
  simpl in Hts. rewrite Hpool in Hts.
  assert (pool (mem s') = []
          ∧ (∃ r', p' = in_requireN r' ∧ waiting (Z.of_nat (length tk.2)) r')
          ∧ ∀ hs k, r = at_take hs k → ¬ k < Z.of_nat (length tk.2)) as (Hpool' & Hp' & Hr).
  { destruct s' as [m' ths']. simpl in *.
    destruct r as [| | |hs k| |hs]; simpl in *.
    - destruct (banker (mem s)); simplify_eq. simpl.
      split; [done|]. split; [by eexists|done].
    - simplify_eq. simpl. split; [done|]. split; [by eexists|done].
    - simplify_eq. simpl. split; [done|]. split; [|done].
      destruct (_ <=? _); eexists; (split; [done|]); simpl; [by right|done].
    - destruct (Z.ltb_spec k (Z.of_nat (length tk.2))); [done|].
      destruct Hw as [?|Hnil]; [lia|]. subst hs. simplify_eq. simpl.
      split; [done|]. split; [by eexists|]. intros ?? [= <- <-]. lia.
    - simplify_eq. simpl. split; [done|]. split; [by eexists|done].
    - done. }
  split.
  - split; [done|]. rewrite Hth'. apply Forall_insert; [|done].
    by apply Forall_lookup.
  - intros j tk' hs k Hj Hk. rewrite Hth'.
    destruct (decide (i = j)) as [->|Hne]; [|by rewrite list_lookup_insert_ne].
    assert (Some (tk, in_requireN r) = Some (tk', in_requireN (at_take hs k))) as Heq
      by (rewrite <- Hi; exact Hj).
    simplify_eq. by destruct (Hr hs k).
Qed.

Lemma starved_exec s tr s' :
  starved s → exec s tr s' →
  starved s'
  ∧ ∀ j tk hs k, threads s !! j = Some (tk, in_requireN (at_take hs k)) →
      k < Z.of_nat (length tk.2) → threads s' !! j = threads s !! j.
Proof.
  intros Hs Hexec. induction Hexec as [|tr s1 W i ev s2 _ [IH1 IH2] Hstep]; [done|].
  destruct (starved_step W i s1 ev s2 IH1 Hstep) as [Hs2 Hkeep]. split; [done|].
  intros j tk hs k Hj Hk.
  transitivity (threads s1 !! j); [|by apply (IH2 j tk hs k)].
  apply (Hkeep j tk hs k); [|done].
  etrans; [by apply (IH2 j tk hs k)|done].
Qed.

Lemma starved_not_finished s :
  starved s → threads s ≠ [] → ¬ all_finished s.
Proof.
  intros [_ Hall] Hne Hfin. unfold all_finished in Hfin.
  destruct (threads s) as [|[tk p] ths]; [done|].
  apply Forall_cons in Hall as [(r & Hp & _) _].
  apply Forall_cons in Hfin as [Hp' _]. simpl in *. congruence.
Qed.

(** C1 fails on the code: [banker] is released before the test of
    [len(pool)], so the test and the takes of two requesters interleave.
    On two hosts, goroutines 4 and 5 of the sweep (partitions [1,3] and
    [2,2], two hosts each) both pass the test while the pool holds two
    hosts, then take one host each; the pool is empty, each waits in
    [<-pool] for a second host, and from then on no interleaving gets any
    goroutine out of [requireN]: [wg.Wait()] never returns. *)
Theorem requireN_check_and_take_interleave (W : World) :
  let s0 := init [host_a; host_b] (spawned [host_a; host_b]) in
  ∃ tr s,
    run_schedule ((λ i, (i, W)) <$> [4; 4; 4; 5; 5; 5; 4; 5]%nat) s0 = Some (tr, s)
    ∧ banker (mem s) = false
    ∧ pool (mem s) = []
    ∧ threads s !! 4%nat
      = Some ((KungFu_Simple, [1; 3]), in_requireN (at_take [host_a] 1))
    ∧ threads s !! 5%nat
      = Some ((KungFu_Simple, [2; 2]), in_requireN (at_take [host_b] 1))
    ∧ ∀ tr' s', exec s tr' s' →
        ¬ all_finished s'
        ∧ pool (mem s') = []
        ∧ threads s' !! 4%nat = threads s !! 4%nat
        ∧ threads s' !! 5%nat = threads s !! 5%nat.
Proof.
  intros s0. eexists _, _. split; [vm_compute; reflexivity|].
  do 4 (split; [reflexivity|]).
  match goal with |- ∀ tr' s', exec ?s _ _ → _ => set (s1 := s) end.
  assert (starved s1) as Hstarved.
  { split; [reflexivity|]. unfold s1. simpl.
    repeat (apply Forall_cons; split;
            [eexists; split; [reflexivity|]; simpl; try (left; lia); exact I|]).
    constructor. }
  intros tr' s' Hexec.
  destruct (starved_exec s1 tr' s' Hstarved Hexec) as [Hs' Hkeep].
  split; [|split; [apply Hs'|split]].
  - apply starved_not_finished; [done|].
    intros Hnil.
    pose proof (Hkeep 4%nat (KungFu_Simple, [1; 3]) [host_a] 1 eq_refl ltac:(simpl; lia)) as H4.
    rewrite Hnil in H4. discriminate H4.
  - apply (Hkeep 4%nat (KungFu_Simple, [1; 3]) [host_a] 1); [reflexivity|simpl; lia].
  - apply (Hkeep 5%nat (KungFu_Simple, [2; 2]) [host_b] 1); [reflexivity|simpl; lia].
Qed.

(** C4 fails on the code: goroutine 5 of the sweep on two hosts calls
    [requireN(2)] while the pool holds two hosts, and passes the test
    [len(pool) >= 2]; goroutine 4, which has passed the same test,
    receives one host.  One host is left, fewer than goroutine 5 asked
    for: it receives that host all the same, and then waits in [<-pool]
    for ever, with one host in hand: [requireN(2)] never returns. *)
Theorem requireN_takes_fewer_and_never_returns (W : World) :
  let s0 := init [host_a; host_b] (spawned [host_a; host_b]) in
  let tk : task := (KungFu_Simple, [2; 2]) in
  ∃ tr s_test s1 s2,
    threads s0 !! 5%nat = Some (tk, in_requireN at_Lock)
    ∧ pool (mem s0) = [host_a; host_b]
    ∧ run_schedule ((λ i, (i, W)) <$> [4; 4; 4; 5; 5; 5]%nat) s0 = Some (tr, s_test)
    ∧ pool (mem s_test) = [host_a; host_b]
    ∧ threads s_test !! 5%nat = Some (tk, in_requireN (at_take [] 0))
    ∧ step W 4 s_test = Some (ev_recv host_a, s1)
    ∧ pool (mem s1) = [host_b]
    ∧ step W 5 s1 = Some (ev_recv host_b, s2)
    ∧ ∀ tr' s', exec s2 tr' s' →
        threads s' !! 5%nat = Some (tk, in_requireN (at_take [host_b] 1)).
Proof.
  intros s0 tk. eexists _, _, _, _.
  do 2 (split; [reflexivity|]).
  split; [vm_compute; reflexivity|].
  do 2 (split; [reflexivity|]).
  split; [vm_compute; reflexivity|].
  split; [reflexivity|].
  split; [vm_compute; reflexivity|].
  match goal with |- ∀ tr' s', exec ?s _ _ → _ => set (s2 := s) end.
  assert (starved s2) as Hstarved.
  { split; [reflexivity|]. unfold s2. simpl.
    repeat (apply Forall_cons; split;
            [eexists; split; [reflexivity|]; simpl; try (left; lia); exact I|]).
    constructor. }
  intros tr' s' Hexec.
  destruct (starved_exec s2 tr' s' Hstarved Hexec) as [_ Hkeep].
  etrans; [apply (Hkeep 5%nat tk [host_b] 1); [reflexivity|simpl; lia]|reflexivity].
Qed.

(** The pool is empty and every goroutine is over or a requester that
    stays inside [requireN] for as long as the pool is empty. *)
Definition stalled (s : state) : Prop :=
  pool (mem s) = []
  ∧ Forall (λ t : task * pc,
      t.2 = finished
      ∨ ∃ r, t.2 = in_requireN r ∧ waiting (Z.of_nat (length t.1.2)) r) (threads s).

Lemma stalled_step W i s ev s' :
  stalled s → step W i s = Some (ev, s') →
  stalled s'
  ∧ records (mem s') = records (mem s)
  ∧ ∀ j tk hs k, threads s !! j = Some (tk, in_requireN (at_take hs k)) →
      k < Z.of_nat (length tk.2) → threads s' !! j = threads s !! j.
Proof.
  intros [Hpool Hall] Hstep.
  apply step_inv in Hstep as (tk & p & p' & Hi & Hth' & Hts).
  rewrite Forall_lookup in Hall.
  destruct (Hall i (tk, p) Hi) as [Hfin|(r & Hp & Hw)]; simpl in *.
  { subst p. done. }
  subst p. simpl in Hts. rewrite Hpool in Hts.
  assert (pool (mem s') = []
          ∧ records (mem s') = records (mem s)
          ∧ (∃ r', p' = in_requireN r' ∧ waiting (Z.of_nat (length tk.2)) r')
          ∧ ∀ hs k, r = at_take hs k → ¬ k < Z.of_nat (length tk.2))
    as (Hpool' & Hrec & Hp' & Hr).
  { destruct s' as [m' ths']. simpl in *.
    destruct r as [| | |hs k| |hs]; simpl in *.
    - destruct (banker (mem s)); simplify_eq. simpl.
      split; [done|]. split; [done|]. split; [by eexists|done].
    - simplify_eq. simpl. split; [done|]. split; [done|]. split; [by eexists|done].
    - simplify_eq. simpl. split; [done|]. split; [done|]. split; [|done].
      destruct (_ <=? _); eexists; (split; [done|]); simpl; [by right|done].
    - destruct (Z.ltb_spec k (Z.of_nat (length tk.2))); [done|].
      destruct Hw as [?|Hnil]; [lia|]. subst hs. simplify_eq. simpl.
      split; [done|]. split; [done|]. split; [by eexists|].
      intros ?? [= <- <-]. lia.
    - simplify_eq. simpl. split; [done|]. split; [done|]. split; [by eexists|done].
    - done. }
  split; [|split; [done|]].
  - split; [done|]. rewrite Hth'. apply Forall_insert; [|by right].
    by apply Forall_lookup.
  - intros j tk' hs k Hj Hk. rewrite Hth'.
    destruct (decide (i = j)) as [->|Hne]; [|by rewrite list_lookup_insert_ne].
    assert (Some (tk, in_requireN r) = Some (tk', in_requireN (at_take hs k))) as Heq
      by (rewrite <- Hi; exact Hj).
    simplify_eq. by destruct (Hr hs k).
Qed.

Lemma stalled_exec s tr s' :
  stalled s → exec s tr s' →
  stalled s'
  ∧ records (mem s') = records (mem s)
  ∧ ∀ j tk hs k, threads s !! j = Some (tk, in_requireN (at_take hs k)) →
      k < Z.of_nat (length tk.2) → threads s' !! j = threads s !! j.
Proof.
  intros Hs Hexec.
  induction Hexec as [|tr s1 W i ev s2 _ (IH1 & IHrec & IH2) Hstep]; [done|].
  destruct (stalled_step W i s1 ev s2 IH1 Hstep) as (Hs2 & Hrec & Hkeep).
  split; [done|]. split; [congruence|].
  intros j tk hs k Hj Hk.
  transitivity (threads s1 !! j); [|by apply (IH2 j tk hs k)].
  apply (Hkeep j tk hs k); [|done].
  etrans; [by apply (IH2 j tk hs k)|done].
Qed.

(** C5 fails on the code: on two hosts, the experiment of goroutine 0
    runs into the deadline; the goroutine appends nothing, hands its host
    back and ends.  Goroutines 4 and 5 then pass the test of [requireN]
    one after the other and receive one host each.  From there on,
    whatever the cluster answers, no goroutine can end and nothing is
    appended: [wg.Wait()] does not return, so [runAllExperiments] does
    not return, neither normally nor with the records of the other
    experiments. *)
Theorem failed_experiment_then_sweep_never_returns (W : World) (ps : list Proc) :
  let late := {| CreateProcs := λ _ _, (ps, None);
                 RemoteRunAll := λ _ _ _ _, ([], Some context_DeadlineExceeded) |} in
  let s0 := init [host_a; host_b] (spawned [host_a; host_b]) in
  ∃ tr s,
    run_schedule (replicate 8 (0%nat, late)
                  ++ ((λ i, (i, W)) <$> [4; 4; 4; 5; 5; 5; 4; 5]%nat)) s0
    = Some (tr, s)
    ∧ outcomes 0 tr = [err context_DeadlineExceeded]
    ∧ threads s !! 0%nat = Some ((KungFu_Simple, [1]), finished)
    ∧ records (mem s) = []
    ∧ ∀ tr' s', exec s tr' s' → ¬ all_finished s' ∧ records (mem s') = [].
Proof.
  intros late s0. eexists _, _.
  split; [vm_compute; reflexivity|].
  do 3 (split; [reflexivity|]).
  match goal with |- ∀ tr' s', exec ?s _ _ → _ => set (s1 := s) end.
  assert (stalled s1) as Hstalled.
  { split; [reflexivity|]. unfold s1. simpl.
    apply Forall_cons; split; [by left|].
    repeat (apply Forall_cons; split;
            [right; eexists; split; [reflexivity|]; simpl; try (left; lia); exact I|]).
    constructor. }
  intros tr' s' Hexec.
  destruct (stalled_exec s1 tr' s' Hstalled Hexec) as (Hs' & Hrec & Hkeep).
  split; [|by rewrite Hrec].
  intros Hfin.
  pose proof (Hkeep 4%nat (KungFu_Simple, [1; 3]) [host_b] 1 eq_refl ltac:(simpl; lia)) as H4.
  unfold all_finished in Hfin. rewrite Forall_lookup in Hfin.
  specialize (Hfin 4%nat _ H4). discriminate Hfin.
Qed.

(** *** More on the sweep *)

(** What a goroutine has in hand against what it asked for: [requireN]
    counts the hosts it receives, stops at [len(partition)] and returns
    them all, and never returns an empty slice. *)
Definition hands_over (tk : task) (p : pc) : Prop :=
  match p with
  | in_requireN (at_take hs i) =>
      i = Z.of_nat (length hs) ∧ (length hs ≤ length tk.2)%nat
  | in_requireN (returning _) => False
  | at_runExperiment hs | at_lock_Lock hs _ | at_append hs _ | at_lock_Unlock hs =>
      length hs = length tk.2 ∧ hs ≠ []
  | at_returnAll rest => (length rest ≤ length tk.2)%nat
  | _ => True
  end.

Lemma thread_step_hands_over W tk p m ev p' m' :
  thread_step W tk p m = Some (ev, p', m') → hands_over tk p → hands_over tk p'.
Proof.
  intros Hstep Hh.
  destruct p as [r|hs|hs r|hs r|hs|[|h rest]| |msg]; simpl in Hstep.
  - destruct r as [| | |hs j| |hs]; simpl in Hstep, Hh.
    + destruct (banker m); by simplify_eq.
    + by simplify_eq.
    + simplify_eq. destruct (_ <=? _); simpl; [split; [done|lia]|done].
    + destruct Hh as [-> Hle].
      destruct (Z.ltb_spec (Z.of_nat (length hs)) (Z.of_nat (length tk.2))).
      * destruct (pool m) as [|h pool']; simplify_eq. simpl.
        rewrite length_app. simpl. split; lia.
      * simplify_eq. destruct hs as [|h hs]; simpl; [done|].
        split; [simpl in *; lia|done].
    + by simplify_eq.
    + done.
  - destruct (runExperiment W hs tk.1 tk.2); simplify_eq; simpl in *;
      [done|lia|done].
  - destruct (lock m); by simplify_eq.
  - by simplify_eq.
  - simplify_eq. simpl in *. lia.
  - by simplify_eq.
  - destruct (_ <? _)%nat; simplify_eq. simpl in *. lia.
  - done.
  - done.
Qed.

Lemma exec_hands_over hosts tasks tr s :
  exec (init hosts tasks) tr s →
  ∀ i tk p, threads s !! i = Some (tk, p) → hands_over tk p.
Proof.
  induction 1 as [|tr s W i ev s' _ IH Hstep]; intros j tk p Hj.
  - simpl in Hj. apply list_lookup_fmap_Some in Hj as (tk' & ? & ?). by simplify_eq.
  - apply step_inv in Hstep as (tk0 & p0 & p0' & Hi & Hth' & Hts).
    rewrite Hth' in Hj. destruct (decide (i = j)) as [->|Hne].
    + rewrite list_lookup_insert_eq in Hj by (by eapply lookup_lt_Some).
      simplify_eq. eapply thread_step_hands_over; [done|]. by eapply IH.
    + rewrite list_lookup_insert_ne in Hj by done. by eapply IH.
Qed.

(** X11: in every interleaving, [runExperiment] is called with exactly
    [len(partition)] hosts, and at least one; so inside the sweep
    [reschedule] never fails for lack of hosts. *)
Theorem experiment_gets_the_hosts_it_asked_for (hosts : list HostSpec)
    (tasks : list task) (tr : trace) (s : state) (i : nat) (tk : task)
    (hs : list HostSpec) :
  exec (init hosts tasks) tr s →
  threads s !! i = Some (tk, at_runExperiment hs) →
  length hs = length tk.2
  ∧ hs ≠ []
  ∧ reschedule hs tk.2 ≠ err (errors_New "hosts not enough").
Proof.
  intros Hexec Hi.
  destruct (exec_hands_over _ _ _ _ Hexec i tk _ Hi) as [Hlen Hne].
  split; [done|split; [done|]].
  unfold reschedule.
  destruct (Nat.ltb_spec (length hs) (length tk.2)) as [?|_]; [lia|].
  destruct (slot_deficit_dec hs tk.2) as [(j & w & p & ? & ? & ?)|Hfit].
  - rewrite reschedule_loop_deficit; [done|simpl; lia|]. by exists j, w, p.
  - rewrite reschedule_loop_ok; [done|simpl; lia|by intros j w p ??; eapply Hfit].
Qed.

Lemma elem_of_concat {A} (x : A) (ls : list (list A)) :
  x ∈ concat ls ↔ ∃ l, l ∈ ls ∧ x ∈ l.
Proof.
  induction ls as [|l ls IH]; simpl.
  - split; [by intros ?%elem_of_nil|by intros (l & ?%elem_of_nil & _)].
  - rewrite elem_of_app, IH. split.
    + intros [Hx|(l' & Hl' & Hx)]; [exists l; split; [left|done]|].
      exists l'. split; [by right|done].
    + intros (l' & Hl' & Hx). apply elem_of_cons in Hl' as [->|Hl']; [by left|].
      right. by exists l'.
Qed.

Lemma NoDup_concat_lookup {A} (ls : list (list A)) : ∀ i j a b x,
  NoDup (concat ls) → ls !! i = Some a → ls !! j = Some b → i ≠ j →
  x ∈ a → x ∉ b.
Proof.
  induction ls as [|l ls IH]; intros i j a b x Hnd Hi Hj Hne Ha Hb;
    [by rewrite lookup_nil in Hi|].
  simpl in Hnd. apply NoDup_app in Hnd as (_ & Hdis & Hnd).
  destruct i as [|i], j as [|j]; simpl in Hi, Hj; simplify_eq.
  - apply (Hdis x Ha). apply elem_of_concat. exists b.
    split; [by eapply list_elem_of_lookup_2|done].
  - apply (Hdis x Hb). apply elem_of_concat. exists a.
    split; [by eapply list_elem_of_lookup_2|done].
  - apply (IH i j a b x); auto.
Qed.

(** X12: when the host list names no host twice, no host is ever in two
    hands: a host a goroutine holds is not in the pool and is held by no
    other goroutine, in every interleaving. *)
Theorem hosts_are_used_exclusively (hosts : list HostSpec) (tasks : list task)
    (tr : trace) (s : state) :
  NoDup hosts →
  exec (init hosts tasks) tr s →
  NoDup (pool (mem s) ++ borrowed s)
  ∧ ∀ i tk p h, threads s !! i = Some (tk, p) → h ∈ held p →
      (h ∉ pool (mem s))
      ∧ ∀ j tk' p', j ≠ i → threads s !! j = Some (tk', p') → h ∉ held p'.
Proof.
  intros Hnd Hexec.
  destruct (exec_inv _ _ _ _ Hexec) as (_ & _ & Hperm & _).
  assert (NoDup (pool (mem s) ++ borrowed s)) as Hnd' by (by rewrite Hperm).
  split; [done|].
  apply NoDup_app in Hnd' as (_ & Hdis & Hb).
  intros i tk p h Hi Hh. split.
  - intros Hpool. apply (Hdis h Hpool). apply elem_of_concat. exists (held p).
    split; [|done]. apply list_elem_of_fmap. exists (tk, p).
    split; [done|by eapply list_elem_of_lookup_2].
  - intros j tk' p' Hne Hj.
    apply (NoDup_concat_lookup ((λ t, held t.2) <$> threads s) i j (held p) (held p') h);
      [done| | |done|done].
    + by rewrite list_lookup_fmap, Hi.
    + by rewrite list_lookup_fmap, Hj.
Qed.

Lemma list_sum_indicator (i c : nat) : ∀ n a,
  (a ≤ i < a + n)%nat →
  list_sum ((λ j, if decide (i = j) then c else 0%nat) <$> seq a n) = c.
Proof.
  induction n as [|n IH]; intros a Hi; [lia|]. simpl.
  destruct (decide (i = a)) as [->|Hne].
  - assert (∀ m b, (a < b)%nat →
      list_sum ((λ j, if decide (a = j) then c else 0%nat) <$> seq b m) = 0%nat) as Hz.
    { induction m as [|m IHm]; intros b Hb; [done|]. simpl.
      destruct (decide (a = b)); [lia|]. rewrite IHm; lia. }
    rewrite Hz; lia.
  - rewrite IH; lia.
Qed.

Lemma list_sum_fmap_add {A} (f g : A → nat) (l : list A) :
  list_sum ((λ x, f x + g x)%nat <$> l)
  = (list_sum (f <$> l) + list_sum (g <$> l))%nat.
Proof.
  induction l as [|x l IH]; [done|].
  change ((f x + g x) + list_sum ((λ x, f x + g x) <$> l)
          = (f x + list_sum (f <$> l)) + (g x + list_sum (g <$> l)))%nat.
  rewrite IH. lia.
Qed.

Lemma list_sum_fmap_le {A} (f : A → nat) (l : list A) :
  (∀ x, x ∈ l → (f x ≤ 1)%nat) → (list_sum (f <$> l) ≤ length l)%nat.
Proof.
  induction l as [|x l IH]; intros Hf; [done|].
  change (f x + list_sum (f <$> l) ≤ S (length l))%nat.
  pose proof (Hf x ltac:(left)). pose proof (IH (λ y Hy, Hf y ltac:(by right))). lia.
Qed.

(** The records appended are those the goroutines appended, counted
    goroutine by goroutine. *)
Lemma length_all_appended (N : nat) : ∀ tr : trace,
  (∀ i ev, (i, ev) ∈ tr → (i < N)%nat) →
  length (all_appended tr)
  = list_sum ((λ j, length (appended j tr)) <$> seq 0 N).
Proof.
  induction tr as [|[i ev] tr IH]; intros Hrange.
  - generalize (seq 0 N). intros l. induction l as [|j l IHl]; [done|].
    change (length (all_appended [])
            = 0 + list_sum ((λ j, length (appended j [])) <$> l))%nat.
    by rewrite <- IHl.
  - change (all_appended ((i, ev) :: tr)) with (append_of ev ++ all_appended tr).
    rewrite length_app, IH by (intros j ev' Hin; apply (Hrange j ev'); by right).
    transitivity
      (list_sum ((λ j, (if decide (i = j) then length (append_of ev) else 0)
                       + length (appended j tr))%nat <$> seq 0 N)).
    + rewrite list_sum_fmap_add, list_sum_indicator; [done|].
      pose proof (Hrange i ev ltac:(left)). lia.
    + f_equal. apply list_fmap_ext. intros _ j _.
      unfold appended, events_of. simpl. case_decide; simpl.
      * by rewrite length_app.
      * done.
Qed.

(** X13: every goroutine appends at most one record, so the sweep returns
    at most one record per experiment it started. *)
Theorem one_record_per_experiment (hosts : list HostSpec) (tasks : list task)
    (tr : trace) (s : state) :
  exec (init hosts tasks) tr s →
  (∀ i, (length (appended i tr) ≤ 1)%nat)
  ∧ (length (records (mem s)) ≤ length tasks)%nat.
Proof.
  intros Hexec.
  destruct (exec_inv _ _ _ _ Hexec) as (Htasks & _ & _ & Hrec & _ & Hrange & Hthreads).
  assert (∀ i, (length (appended i tr) ≤ 1)%nat) as Hone.
  { intros i. destruct (threads s !! i) as [[tk p]|] eqn:Hi.
    - destruct (Hthreads i tk p Hi) as (_ & Happ & Hout & _).
      pose proof (length_records_of tk (outcomes i tr)) as Hle.
      rewrite <- Happ, length_app, Hout in Hle.
      destruct p; simpl in Hle; lia.
    - destruct (appended i tr) as [|r l] eqn:Ha; [simpl; lia|].
      assert (r ∈ appended i tr) as Hin by (rewrite Ha; left).
      apply elem_of_appended in Hin. apply Hrange in Hin.
      apply lookup_ge_None in Hi. rewrite <- Htasks, length_fmap in Hin. lia. }
  split; [done|].
  rewrite Hrec, (length_all_appended (length tasks)) by done.
  etrans; [apply list_sum_fmap_le; intros j _; apply Hone|].
  by rewrite length_seq.
Qed.

(** X14: [run] starts the experiments whose partition fits the host
    list, sixteen on one host and all thirty-two on two or more. *)
Theorem spawned_count (hosts : list HostSpec) :
  length (spawned hosts) = (16 * (2 `min` length hosts))%nat
  ∧ ∀ a p, (a, p) ∈ spawned hosts
           ↔ a ∈ algos ∧ p ∈ partitions ∧ (length p ≤ length hosts)%nat.
Proof.
  split.
  - destruct hosts as [|h1 [|h2 hosts]]; reflexivity.
  - intros a p. unfold spawned. rewrite list_elem_of_bind. split.
    + intros (a' & Hin & Ha'). apply list_elem_of_bind in Hin as (p' & Hin & Hp').
      destruct (Nat.ltb_spec (length hosts) (length p')) as [?|Hle];
        [by apply elem_of_nil in Hin|].
      apply list_elem_of_singleton in Hin as [= -> ->]. done.
    + intros (Ha & Hp & Hle). exists a. split; [|done].
      apply list_elem_of_bind. exists p. split; [|done].
      destruct (Nat.ltb_spec (length hosts) (length p)) as [?|_]; [lia|].
      by apply list_elem_of_singleton.
Qed.
(** *** Experiments on one host each cannot stall *)

(** Whether the goroutine is between [banker.Lock()] and
    [banker.Unlock()]. *)
Definition in_banker (p : pc) : nat :=
  match p with in_requireN at_Unlock => 1 | _ => 0 end.

Lemma exec_banker hosts tasks tr s :
  exec (init hosts tasks) tr s →
  list_sum ((λ t, in_banker t.2) <$> threads s)
  = (if banker (mem s) then 1 else 0)%nat.
Proof.
  induction 1 as [|tr s W i ev s' _ IH Hstep].
  - simpl. rewrite <- list_fmap_compose.
    induction tasks as [|tk tasks' IHt]; simpl; [done|apply IHt].
  - apply step_inv in Hstep as (tk & p & p' & Hi & Hth' & Hts).
    destruct (insert_middle (threads s) i (tk, p) (tk, p') Hi) as (l1 & l2 & Hl & Hl').
    rewrite <- Hth' in Hl'. rewrite Hl'. rewrite Hl in IH. revert IH Hts.
    rewrite !fmap_app, !list_sum_app.
    destruct s' as [m' th']. simpl. clear. intros IH Hts.
    destruct p as [r|hs|hs r|hs r|hs|[|h rest]| |msg]; simpl in Hts;
      [destruct r; simpl in Hts|..];
      repeat case_match; simplify_eq; simpl in *; try lia.
    all: destruct (banker (mem s)); simpl in *; lia.
Qed.

(** How far a goroutine that asked for one host is from its end, at
    most. *)
Definition rank (p : pc) : nat :=
  match p with
  | in_requireN at_tick => 13
  | in_requireN at_Lock => 12
  | in_requireN at_Unlock => 11
  | in_requireN at_check => 10
  | in_requireN (at_take hs _) => 8 + (1 - length hs)
  | in_requireN (returning _) => 0
  | _ => to_go p
  end.

Definition remaining (s : state) : nat := list_sum ((λ t, rank t.2) <$> threads s).

(** A goroutine that asked for one host can act and comes closer to its
    end, when [lock] is free, the channel has room for what it holds and,
    if it holds nothing, [banker] is free and the pool is not empty. *)
Lemma thread_progress W tk p m :
  length tk.2 = 1%nat → hands_over tk p →
  lock m = false →
  (length (pool m) + length (held p) ≤ capacity m)%nat →
  (held p = [] → banker m = false ∧ pool m ≠ []) →
  (0 < rank p)%nat →
  ∃ ev p' m', thread_step W tk p m = Some (ev, p', m') ∧ (rank p' < rank p)%nat.
Proof.
  intros Hn Hh Hlock Hroom Hfree Hpos.
  destruct p as [r|hs|hs r|hs r|hs|[|h rest]| |msg]; simpl in *.
  - rewrite Hn. destruct r as [| | |hs j| |hs]; simpl in *.
    + destruct Hfree as [-> _]; [done|].
      eexists _, _, _. split; [done|]. simpl. lia.
    + eexists _, _, _. split; [done|]. simpl. lia.
    + destruct Hfree as [_ Hne]; [done|].
      assert (1 ≤ Z.of_nat (length (pool m))) by (destruct (pool m); [done|simpl; lia]).
      destruct (_ <=? _) eqn:E; [|apply Z.leb_gt in E; lia].
      eexists _, _, _. split; [done|]. simpl. lia.
    + destruct Hh as [-> Hle]. destruct hs as [|h [|h' hs]]; simpl in *; [| |lia].
      * destruct Hfree as [_ Hne]; [done|].
        destruct (pool m) as [|h pool'] eqn:Hp; [done|].
        eexists _, _, _. split; [done|]. simpl. lia.
      * eexists _, _, _. split; [done|]. simpl. lia.
    + eexists _, _, _. split; [done|]. simpl. lia.
    + done.
  - eexists _, _, _. split; [done|].
    destruct (runExperiment W hs tk.1 tk.2); simpl; lia.
  - rewrite Hlock. eexists _, _, _. split; [done|]. simpl. lia.
  - eexists _, _, _. split; [done|]. simpl. lia.
  - eexists _, _, _. split; [done|]. simpl. lia.
  - eexists _, _, _. split; [done|]. simpl. lia.
  - destruct (Nat.ltb_spec (length (pool m)) (capacity m)) as [_|?]; [|lia].
    eexists _, _, _. split; [done|]. simpl. lia.
  - lia.
  - lia.
Qed.

Lemma step_remaining W i s tk p ev p' m' :
  threads s !! i = Some (tk, p) →
  thread_step W tk p (mem s) = Some (ev, p', m') →
  ∃ s', step W i s = Some (ev, s')
        ∧ (remaining s' + rank p = remaining s + rank p')%nat.
Proof.
  intros Hi Hts. unfold step. rewrite Hi, Hts. eexists. split; [done|].
  unfold remaining. simpl.
  destruct (insert_middle (threads s) i (tk, p) (tk, p') Hi) as (l1 & l2 & Hl & ->).
  rewrite Hl, !fmap_app, !list_sum_app.
  change (list_sum ((λ t : task * pc, rank t.2) <$> (tk, p') :: l2))
    with (rank p' + list_sum ((λ t : task * pc, rank t.2) <$> l2))%nat.
  change (list_sum ((λ t : task * pc, rank t.2) <$> (tk, p) :: l2))
    with (rank p + list_sum ((λ t : task * pc, rank t.2) <$> l2))%nat.
  lia.
Qed.

Lemma length_concat_pos {A B} (f : A → list B) (l : list A) :
  (0 < length (concat (f <$> l)))%nat → ∃ j x, l !! j = Some x ∧ f x ≠ [].
Proof.
  induction l as [|x l IH]; [simpl; lia|]. intros Hpos.
  destruct (f x) as [|b bs] eqn:Hfx.
  - destruct IH as (j & y & ? & ?).
    { revert Hpos. simpl. by rewrite Hfx. }
    by exists (S j), y.
  - exists 0%nat, x. split; [done|]. by rewrite Hfx.
Qed.

(** In a sweep of experiments on one host each, as long as some goroutine
    is not over, some goroutine can act and come closer to its end. *)
Lemma one_host_progress (Ws : nat → World) hosts tasks tr s :
  hosts ≠ [] →
  Forall (λ tk : task, length tk.2 = 1%nat) tasks →
  exec (init hosts tasks) tr s →
  (0 < remaining s)%nat →
  ∃ i ev s', step (Ws i) i s = Some (ev, s') ∧ (remaining s' < remaining s)%nat.
Proof.
  intros Hhosts Hone Hexec Hpos.
  pose proof (exec_hands_over _ _ _ _ Hexec) as Hho.
  pose proof (exec_banker _ _ _ _ Hexec) as Hbk.
  destruct (exec_inv _ _ _ _ Hexec) as (Htasks & Hcap & Hperm & _ & Hlock & _ & _).
  assert (∀ i tk p, threads s !! i = Some (tk, p) → length tk.2 = 1%nat) as Hn.
  { intros i tk p Hi. rewrite Forall_forall in Hone. apply Hone.
    rewrite <- Htasks. apply list_elem_of_fmap. exists (tk, p).
    split; [done|by eapply list_elem_of_lookup_2]. }
  assert (length (pool (mem s)) + length (borrowed s) = capacity (mem s))%nat as Hsum.
  { rewrite Hcap, <- Hperm, length_app. done. }
  assert (∀ i tk p ev p' m',
    threads s !! i = Some (tk, p) →
    thread_step (Ws i) tk p (mem s) = Some (ev, p', m') ∧ (rank p' < rank p)%nat →
    ∃ i ev s', step (Ws i) i s = Some (ev, s') ∧ (remaining s' < remaining s)%nat)
    as Hgo.
  { intros i tk p ev p' m' Hi [Hts Hlt].
    destruct (step_remaining (Ws i) i s tk p ev p' m' Hi Hts) as (s' & Hstep & Hrem).
    exists i, ev, s'. split; [done|lia]. }
  destruct (lock (mem s)) eqn:Hl.
  { destruct (list_sum_pos (λ t : task * pc, critical t.2) (threads s))
      as (i & [tk p] & Hi & Hc); [lia|].
    destruct p; simpl in Hc; try lia.
    - eapply (Hgo i); [done|]. split; [done|simpl; lia].
    - eapply (Hgo i); [done|]. split; [done|simpl; lia]. }
  destruct (decide (0 < length (borrowed s))%nat) as [Hb|Hb].
  { destruct (length_concat_pos (λ t : task * pc, held t.2) (threads s) Hb)
      as (i & [tk p] & Hi & Hheld). simpl in Hheld.
    destruct (thread_progress (Ws i) tk p (mem s)) as (ev & p' & m' & Hts & Hlt).
    - by eapply Hn.
    - by eapply Hho.
    - done.
    - pose proof (held_le_borrowed s i tk p Hi). lia.
    - done.
    - destruct p as [r| | | | |[|??]| |]; simpl in *; try lia; try done.
      destruct r; simpl in *; try done.
      destruct (Hho i tk _ Hi) as [_ Hle]. rewrite (Hn i tk _ Hi) in Hle.
      destruct hs; simpl in *; [done|lia].
    - by eapply (Hgo i). }
  assert (pool (mem s) ≠ []) as Hpool.
  { intros Hnil. rewrite Hnil in Hsum. simpl in Hsum.
    destruct hosts; [done|]. simpl in Hcap. lia. }
  destruct (banker (mem s)) eqn:Hbanker.
  { destruct (list_sum_pos (λ t : task * pc, in_banker t.2) (threads s))
      as (i & [tk p] & Hi & Hc); [lia|].
    destruct p as [[]| | | | | | |]; simpl in Hc; try lia.
    eapply (Hgo i); [done|]. split; [done|simpl; lia]. }
  destruct (list_sum_pos (λ t : task * pc, rank t.2) (threads s))
    as (i & [tk p] & Hi & Hr); [done|]. simpl in Hr.
  destruct (thread_progress (Ws i) tk p (mem s)) as (ev & p' & m' & Hts & Hlt).
  - by eapply Hn.
  - by eapply Hho.
  - done.
  - pose proof (held_le_borrowed s i tk p Hi). lia.
  - done.
  - done.
  - by eapply (Hgo i).
Qed.

Lemma remaining_zero hosts tasks tr s :
  exec (init hosts tasks) tr s → remaining s = 0%nat → all_finished s.
Proof.
  intros Hexec Hz. apply Forall_forall. intros [tk p] Hin. simpl.
  apply list_elem_of_lookup in Hin as [i Hi].
  destruct (exec_inv _ _ _ _ Hexec) as (_ & _ & _ & _ & _ & _ & Hthreads).
  destruct (Hthreads i tk p Hi) as (_ & _ & _ & Hnopanic).
  pose proof (exec_hands_over _ _ _ _ Hexec i tk p Hi) as Hh.
  assert (rank p = 0%nat) as Hr.
  { destruct (decide (0 < rank p)%nat) as [Hpos|?]; [|lia].
    unfold remaining in Hz.
    rewrite <- (take_drop_middle _ _ _ Hi), fmap_app, list_sum_app in Hz.
    change (list_sum ((λ t : task * pc, rank t.2) <$> (tk, p) :: drop (S i) (threads s)))
      with (rank p + list_sum ((λ t : task * pc, rank t.2) <$> drop (S i) (threads s)))%nat
      in Hz.
    lia. }
  destruct p as [r| | | | |[|??]| |msg]; simpl in Hr; try lia; try done.
  - destruct r; simpl in *; try lia; done.
  - by destruct (Hnopanic msg).
Qed.

(** X15: a sweep whose experiments all ask for one host (the sweep on a
    single host is one) cannot stall: from every state an interleaving
    can reach, some schedule takes every goroutine to its end. *)
Theorem one_host_experiments_cannot_stall (Ws : nat → World)
    (hosts : list HostSpec) (tasks : list task) (tr : trace) (s : state) :
  hosts ≠ [] →
  Forall (λ tk : task, length tk.2 = 1%nat) tasks →
  exec (init hosts tasks) tr s →
  ∃ sched tr' s',
    run_schedule ((λ i, (i, Ws i)) <$> sched) s = Some (tr', s')
    ∧ all_finished s'.
Proof.
  intros Hhosts Hone.
  assert (∀ k tr s, exec (init hosts tasks) tr s → (remaining s ≤ k)%nat →
    ∃ sched tr' s',
      run_schedule ((λ i, (i, Ws i)) <$> sched) s = Some (tr', s')
      ∧ all_finished s') as Hall.
  { clear tr s. induction k as [|k IH]; intros tr s Hexec Hk.
    - exists [], [], s. split; [done|]. eapply remaining_zero; [done|lia].
    - destruct (decide (0 < remaining s)%nat) as [Hpos|?].
      + destruct (one_host_progress Ws hosts tasks tr s Hhosts Hone Hexec Hpos)
          as (i & ev & s1 & Hstep & Hlt).
        destruct (IH (tr ++ [(i, ev)]) s1) as (sched & tr' & s' & Hrun & Hfin).
        { by eapply exec_step. }
        { lia. }
        exists (i :: sched), ((i, ev) :: tr'), s'. split; [|done].
        rewrite fmap_cons. cbn [run_schedule]. by rewrite Hstep, Hrun.
      + exists [], [], s. split; [done|]. eapply remaining_zero; [done|lia]. }
  intros Hexec. by eapply Hall.
Qed.
End experiment.

(** ** The sweep on concrete clusters *)

(** A cluster whose processes all end without error, the first of them
    printing the result line. *)
Definition quiet_World (lines : list string) : @World unit :=
  {| CreateProcs := λ _ _, ([()], None);
     RemoteRunAll := λ _ _ _ _, ([{| Stdout := lines; Stderr := [] |}], None) |}.

(** A cluster on which every run ends with the deadline error. *)
Definition late_World : @World unit :=
  {| CreateProcs := λ _ _, ([()], None);
     RemoteRunAll := λ _ _ _ _, ([], Some context_DeadlineExceeded) |}.

(** The sweep run with [-u ""], [-v], [-timeout 90s] on the program
    ["bench"], with a [HostSpec.String] that prints the host name and no
    tokens outside decimal notation. *)
Definition demo_run (sched : list (nat * @World unit)) (s : @state)
  : option (@trace * @state) :=
  run_schedule Hostname (λ _, None) "" true 90 "bench" [] sched s.

(** On one host the sweep spawns the four one-host partitions of each of
    the four algorithms; on two hosts, all thirty-two experiments. *)
Example spawned_on_one_host :
  spawned [host_a]
  = a ← algos; [(a, [1]); (a, [2]); (a, [3]); (a, [4])].
Proof. reflexivity. Qed.

Example spawned_on_two_hosts : length (spawned [host_a; host_b]) = 32%nat.
Proof. reflexivity. Qed.

(** The sweep on [host_a] and [host_b] after goroutine 5 (partition [2,2])
    has gone through [requireN] alone: it holds both hosts and is about to
    call [runExperiment]. *)
Definition two_hosts_start : state := init [host_a; host_b] (spawned [host_a; host_b]).

Definition goroutine_5_alone : list (nat * @World unit) :=
  replicate 6 (5%nat, late_World).

Definition two_hosts_midway : trace * state :=
  Eval vm_compute in default ([], two_hosts_start) (demo_run goroutine_5_alone two_hosts_start).

(** The sweep on [host_a] alone after goroutine 0 (partition [1]) has run
    to its end on a cluster that prints no result line, and goroutine 1
    (partition [2]) on a cluster that times out. *)
Definition one_host_start : state := init [host_a] (spawned [host_a]).

Definition two_goroutines_in_turn : list (nat * @World unit) :=
  replicate 11 (0%nat, quiet_World ["warming up"; "done"])
  ++ replicate 8 (1%nat, late_World).

Definition one_host_later : trace * state :=
  Eval vm_compute in default ([], one_host_start) (demo_run two_goroutines_in_turn one_host_start).

(** C2 on the two-host sweep with both hosts borrowed. *)
Lemma borrowed_never_exceeds_total_witness :
  (length (borrowed two_hosts_midway.2) ≤ length [host_a; host_b])%nat
  ∧ (length (pool (mem two_hosts_midway.2)) + length (borrowed two_hosts_midway.2)
     = length [host_a; host_b])%nat
  ∧ pool (mem two_hosts_midway.2) ++ borrowed two_hosts_midway.2 ≡ₚ [host_a; host_b].
Proof.
  apply (borrowed_never_exceeds_total (Proc := unit) Hostname (λ _, None) "" true 90 "bench" []
           [host_a; host_b] (spawned [host_a; host_b])
           two_hosts_midway.1 two_hosts_midway.2).
  apply run_schedule_exec with (sched := goroutine_5_alone).
  vm_compute. reflexivity.
Defined.

(** C3 on goroutine 5 of the two-host sweep, which holds both hosts. *)
Lemma borrowed_hosts_returned_once_witness :
  let s := two_hosts_midway.2 in
  let tr := two_hosts_midway.1 in
  let p := at_runExperiment [host_a; host_b] in
  let tk : task := (KungFu_Simple, [2; 2]) in
  received 5 tr = sent 5 tr ++ held p
  ∧ (p = finished → sent 5 tr = received 5 tr)
  ∧ (past_requireN p → ∀ W : @World unit,
       (∃ ev p' m',
           thread_step Hostname (λ _, None) "" true 90 "bench" [] W tk p (mem s)
           = Some (ev, p', m')
           ∧ (to_go p' < to_go p)%nat
           ∧ (past_requireN p' ∨ p' = finished))
       ∨ (∃ hs r j tk' p',
             p = at_lock_Lock hs r ∧ j ≠ 5%nat
             ∧ threads s !! j = Some (tk', p') ∧ critical p' = 1%nat))
  ∧ (∀ hs (W : @World unit), p = at_runExperiment hs → lock (mem s) = false →
       ∃ k evs m',
         thread_run Hostname (λ _, None) "" true 90 "bench" [] W tk k p (mem s)
         = Some (evs, finished, m')
         ∧ pool m' = pool (mem s) ++ hs
         ∧ evs ≫= send_of = hs).
Proof.
  apply (borrowed_hosts_returned_once (Proc := unit) Hostname (λ _, None) "" true 90 "bench" []
           [host_a; host_b] (spawned [host_a; host_b])
           two_hosts_midway.1 two_hosts_midway.2 5%nat).
  - apply run_schedule_exec with (sched := goroutine_5_alone).
    vm_compute. reflexivity.
  - reflexivity.
Defined.

(** X18 on a pool of two hosts and [n = 2]. *)
Lemma requireN_alone_spec_witness :
  ∃ hs pool',
    requireN_run 2 (Z.to_nat 2 + 4) at_Lock false [host_a; host_b]
    = Some (returning hs, false, pool', hs)
    ∧ Z.of_nat (length hs) = 2
    ∧ [host_a; host_b] = hs ++ pool'.
Proof.
  apply (proj1 (requireN_alone_spec 2 [host_a; host_b])). simpl. lia.
Defined.

(** X19 on the one-host sweep after a success and a timeout. *)
Lemma experiment_failures_are_isolated_witness :
  let s := one_host_later.2 in
  let tr := one_host_later.1 in
  records (mem s) = all_appended tr
  ∧ (∀ i tk p msg, threads s !! i = Some (tk, p) → p ≠ panicked msg)
  ∧ (∀ i e r, (i, ev_experiment (err e)) ∈ tr → (i, ev_append r) ∉ tr)
  ∧ (∀ r, r ∈ records (mem s) →
       ∃ i tk res, spawned [host_a] !! i = Some tk
                   ∧ (i, ev_experiment (ok res)) ∈ tr
                   ∧ r = mkRecord tk.2 tk.1 res)
  ∧ (all_finished s → ∀ i tk res,
       spawned [host_a] !! i = Some tk → (i, ev_experiment (ok res)) ∈ tr →
       mkRecord tk.2 tk.1 res ∈ records (mem s))
  ∧ (∀ i tk rest (W : @World unit),
       threads s !! i = Some (tk, at_returnAll rest) →
       is_Some (thread_step Hostname (λ _, None) "" true 90 "bench" [] W tk
                  (at_returnAll rest) (mem s))).
Proof.
  apply (proj1 (experiment_failures_are_isolated (Proc := unit) Hostname (λ _, None) "" true 90
                  "bench" [] [host_a])
           (spawned [host_a]) one_host_later.1 one_host_later.2).
  apply run_schedule_exec with (sched := two_goroutines_in_turn).
  vm_compute. reflexivity.
Defined.

(** C6 as stated fails: the experiment of goroutine 0 ends without error
    and prints no line with the label, and its record is in the log. *)
Lemma missing_pattern_experiment_is_logged :
  grep "Img/sec per /gpu:0" ["warming up"; "done"] = []
  ∧ demo_run (replicate 11 (0%nat, quiet_World ["warming up"; "done"])) one_host_start
    = Some ([(0%nat, ev_silent); (0%nat, ev_silent); (0%nat, ev_silent);
             (0%nat, ev_recv host_a); (0%nat, ev_silent);
             (0%nat, ev_experiment (ok zero_Result)); (0%nat, ev_silent);
             (0%nat, ev_append (mkRecord [1] KungFu_Simple zero_Result));
             (0%nat, ev_silent); (0%nat, ev_send host_a); (0%nat, ev_silent)],
            {| mem := {| pool := [host_a]; capacity := 1; banker := false;
                         lock := false;
                         records := [mkRecord [1] KungFu_Simple zero_Result] |};
               threads := <[0%nat := ((KungFu_Simple, [1]), finished)]>
                            (threads one_host_start) |}).
Proof. split; vm_compute; reflexivity. Qed.

(** C6, amended, on that experiment. *)
Lemma missing_pattern_is_recorded_as_zero_witness :
  let W := quiet_World ["warming up"; "done"] in
  let tk : task := (KungFu_Simple, [1]) in
  let m := mem one_host_start in
  runExperiment Hostname (λ _, None) "" true 90 "bench" [] W [host_a] tk.1 tk.2
  = ok zero_Result
  ∧ thread_run Hostname (λ _, None) "" true 90 "bench" [] W tk 3
      (at_runExperiment [host_a]) m
    = Some ([ev_experiment (ok zero_Result); ev_silent;
             ev_append (mkRecord tk.2 tk.1 zero_Result)],
            at_lock_Unlock [host_a],
            {| pool := pool m; capacity := capacity m; banker := banker m;
               lock := true;
               records := records m ++ [mkRecord tk.2 tk.1 zero_Result] |}).
Proof.
  apply (missing_pattern_is_recorded_as_zero Hostname (λ _, None) "" true 90 "bench" []
           (quiet_World ["warming up"; "done"]) (KungFu_Simple, [1])
           [host_a] [set_Slots host_a 1] [()]
           [{| Stdout := ["warming up"; "done"]; Stderr := [] |}]
           (mem one_host_start)).
  - reflexivity.
  - reflexivity.
  - reflexivity.
  - intros r line Hr Hline. apply list_elem_of_singleton in Hr. subst r.
    simpl in Hline.
    apply elem_of_cons in Hline as [->|Hline]; [reflexivity|].
    apply list_elem_of_singleton in Hline. subst line. reflexivity.
  - reflexivity.
Defined.

(** C8 on a heap whose only array holds [host_a] and [host_b]. *)
Lemma reschedule_leaves_hosts_untouched_witness :
  let h : gmap nat (list HostSpec) := {[ 0%nat := [host_a; host_b] ]} in
  let hosts := Mem.mk_slice 0 0 2 2 in
  let h' := (Mem.reschedule (λ c, 2 * c)%nat h hosts [1; 2]).2 in
  (∀ a arr, h !! a = Some arr → h' !! a = Some arr)
  ∧ (∀ i, Mem.index h' hosts i = Mem.index h hosts i)
  ∧ Mem.agrees h' (Mem.reschedule (λ c, 2 * c)%nat h hosts [1; 2]).1
      (reschedule (Mem.contents h hosts) [1; 2]).
Proof.
  apply (reschedule_leaves_hosts_untouched (λ c, 2 * c)%nat
           {[ 0%nat := [host_a; host_b] ]} (Mem.mk_slice 0 0 2 2) [1; 2]).
  split; [lia|]. exists [host_a; host_b]. split; [reflexivity|simpl; lia].
Defined.

(** ** More on [reschedule] *)

Lemma reschedule_ok_inv (hosts : list HostSpec) (partition : list Z) workers :
  reschedule hosts partition = ok workers →
  (length partition ≤ length hosts)%nat
  ∧ (∀ j w p, hosts !! j = Some w → partition !! j = Some p → p ≤ Slots w)
  ∧ workers = zip_with set_Slots hosts partition.
Proof.
  unfold reschedule.
  destruct (Nat.ltb_spec (length hosts) (length partition)) as [?|Hle]; [done|].
  destruct (slot_deficit_dec hosts partition) as [(j & w & p & ? & ? & ?)|Hfit].
  - rewrite reschedule_loop_deficit; [done|simpl; lia|]. by exists j, w, p.
  - rewrite reschedule_loop_ok; [|simpl; lia|by intros j w p ??; eapply Hfit].
    simpl. rewrite drop_0. by intros [= <-].
Qed.

Lemma reschedule_fits (hosts : list HostSpec) (partition : list Z) :
  (length partition ≤ length hosts)%nat →
  (∀ j w p, hosts !! j = Some w → partition !! j = Some p → p ≤ Slots w) →
  reschedule hosts partition = ok (zip_with set_Slots hosts partition).
Proof.
  intros Hle Hfit. unfold reschedule.
  destruct (Nat.ltb_spec (length hosts) (length partition)) as [?|_]; [lia|].
  rewrite reschedule_loop_ok; [|simpl; lia|by intros j w p ??; eapply Hfit].
  simpl. by rewrite drop_0.
Qed.

Lemma reschedule_slot_deficit (hosts : list HostSpec) (partition : list Z) :
  (length partition ≤ length hosts)%nat → slot_deficit hosts partition →
  reschedule hosts partition = err (errors_New "host slots not enough").
Proof.
  intros Hle (j & w & p & ? & ? & ?). unfold reschedule.
  destruct (Nat.ltb_spec (length hosts) (length partition)) as [?|_]; [lia|].
  rewrite reschedule_loop_deficit; [done|simpl; lia|]. by exists j, w, p.
Qed.

(** X1: the two errors of [reschedule] are told apart by their cause:
    ["hosts not enough"] exactly when the partition is longer than the host
    list, whatever the slots are; ["host slots not enough"] exactly when the
    hosts suffice in number and one of them is too small; no other error is
    ever returned. *)
Theorem reschedule_error_cause (hosts : list HostSpec) (partition : list Z) (e : error) :
  reschedule hosts partition = err e
  ↔ ((length hosts < length partition)%nat ∧ e = errors_New "hosts not enough")
    ∨ ((length partition ≤ length hosts)%nat
       ∧ slot_deficit hosts partition
       ∧ e = errors_New "host slots not enough").
Proof.
  unfold reschedule.
  destruct (Nat.ltb_spec (length hosts) (length partition)) as [Hlt|Hle].
  - split.
    + intros [= <-]. by left.
    + intros [[_ ->]|(? & _)]; [done|lia].
  - destruct (slot_deficit_dec hosts partition) as [Hbad|Hfit].
    + rewrite reschedule_loop_deficit; [|simpl; lia|].
      * split; [intros [= <-]; by right|].
        intros [[? _]|(_ & _ & ->)]; [lia|done].
      * destruct Hbad as (j & w & p & ? & ? & ?). by exists j, w, p.
    + rewrite reschedule_loop_ok; [|simpl; lia|by intros j w p ??; eapply Hfit].
      split; [done|].
      intros [[? _]|(_ & (j & w & p & Hj & Hp & ?) & _)]; [lia|].
      specialize (Hfit j w p Hj Hp). lia.
Qed.

(** X2: what [reschedule] returns passes [reschedule] again, with the same
    partition, unchanged. *)
Theorem reschedule_idempotent (hosts workers : list HostSpec) (partition : list Z) :
  reschedule hosts partition = ok workers →
  reschedule workers partition = ok workers.
Proof.
  intros Hok. apply reschedule_ok_inv in Hok as (Hle & Hfit & ->).
  rewrite reschedule_fits.
  - f_equal. clear Hle Hfit. revert partition.
    induction hosts as [|w hosts IH]; intros [|p partition]; simpl; try done.
    by rewrite IH.
  - rewrite length_zip_with. lia.
  - intros j w p Hj Hp. rewrite lookup_zip_with, Hp in Hj.
    destruct (hosts !! j); simpl in Hj; simplify_eq. simpl. lia.
Qed.

Lemma reschedule_idempotent_witness :
  reschedule [set_Slots host_a 1; set_Slots host_b 3] [1; 3]
  = ok [set_Slots host_a 1; set_Slots host_b 3].
Proof.
  apply (reschedule_idempotent [host_a; host_b; host_a]). reflexivity.
Defined.

(** X3: [reschedule] only shrinks: each record it returns has the host
    name and the public address of the host at its index and no more slots
    than that host. *)
Theorem reschedule_only_shrinks (hosts workers : list HostSpec) (partition : list Z) :
  reschedule hosts partition = ok workers →
  ∀ i w', workers !! i = Some w' →
    ∃ w, hosts !! i = Some w
         ∧ Hostname w' = Hostname w ∧ PublicAddr w' = PublicAddr w
         ∧ Slots w' ≤ Slots w.
Proof.
  intros Hok i w' Hi. apply reschedule_ok_inv in Hok as (_ & Hfit & ->).
  rewrite lookup_zip_with in Hi.
  destruct (hosts !! i) as [w|] eqn:Hw; [|done]. simpl in Hi.
  destruct (partition !! i) as [p|] eqn:Hp; [|done]. simpl in Hi. simplify_eq.
  exists w. repeat split. simpl. by eapply Hfit.
Qed.

Lemma reschedule_only_shrinks_witness :
  ∃ w, [host_a; host_b] !! 1%nat = Some w
       ∧ Hostname (set_Slots host_b 3) = Hostname w
       ∧ PublicAddr (set_Slots host_b 3) = PublicAddr w
       ∧ Slots (set_Slots host_b 3) ≤ Slots w.
Proof.
  apply (reschedule_only_shrinks [host_a; host_b]
           [set_Slots host_a 1; set_Slots host_b 3] [1; 3]); reflexivity.
Defined.

(** X4: hosts past the length of the partition play no part: they are
    neither tested nor returned. *)
Theorem reschedule_ignores_spare_hosts (hosts spare : list HostSpec) (partition : list Z) :
  (length partition ≤ length hosts)%nat →
  reschedule (hosts ++ spare) partition = reschedule hosts partition.
Proof.
  intros Hle.
  destruct (slot_deficit_dec hosts partition) as [(j & w & p & Hj & Hp & Hlt)|Hfit].
  - assert (∀ l, (length partition ≤ length l)%nat → l !! j = Some w →
              reschedule l partition = err (errors_New "host slots not enough")) as Hbad.
    { intros l Hl Hlj. apply reschedule_slot_deficit; [done|]. by exists j, w, p. }
    rewrite (Hbad hosts), (Hbad (hosts ++ spare)); try done.
    + rewrite length_app. lia.
    + by apply lookup_app_l_Some.
  - rewrite (reschedule_fits hosts), (reschedule_fits (hosts ++ spare)); try done.
    + f_equal. clear Hfit. revert partition Hle.
      induction hosts as [|w hosts IH]; intros [|p partition] Hle; simpl in *;
        try done; try lia.
      * by destruct spare.
      * rewrite IH; [done|lia].
    + rewrite length_app. lia.
    + intros j w p Hj Hp. apply (Hfit j w p); [|done].
      rewrite lookup_app_l in Hj; [done|].
      apply lookup_lt_Some in Hp. lia.
Qed.

Lemma reschedule_ignores_spare_hosts_witness :
  reschedule ([host_a; host_b] ++ [set_Slots host_a 0]) [2; 2]
  = reschedule [host_a; host_b] [2; 2].
Proof.
  apply (reschedule_ignores_spare_hosts [host_a; host_b] [set_Slots host_a 0] [2; 2]).
  simpl. lia.
Defined.

Lemma reschedule_loop_outside (growcap : nat → nat) (h0 : gmap nat (list HostSpec))
    hosts partition : ∀ h i workers s,
  h0 ⊆ h → Mem.outside h0 workers →
  (Mem.reschedule_loop growcap h hosts i partition workers).1 = ok s →
  Mem.outside h0 s.
Proof.
  induction partition as [|p partition IH]; intros h i workers s Hsub Hout; simpl.
  - by intros [= <-].
  - destruct (Mem.index h hosts i) as [w|]; [|done].
    destruct (Slots w <? p); [done|].
    destruct (Mem.append_frame growcap h0 h workers (set_Slots w p) Hsub Hout)
      as [Hsub' Hout'].
    destruct (Mem.append growcap h workers (set_Slots w p)) as [workers' h'].
    by apply IH.
Qed.

Lemma reschedule_loop_wf (growcap : nat → nat) hosts partition : ∀ h i workers s,
  Mem.wf h workers →
  (Mem.reschedule_loop growcap h hosts i partition workers).1 = ok s →
  Mem.wf (Mem.reschedule_loop growcap h hosts i partition workers).2 s.
Proof.
  induction partition as [|p partition IH]; intros h i workers s Hwf; simpl.
  - by intros [= <-].
  - destruct (Mem.index h hosts i) as [w|]; [|done].
    destruct (Slots w <? p); [done|].
    destruct (Mem.append_contents growcap h workers (set_Slots w p) Hwf) as [Hwf' _].
    destruct (Mem.append growcap h workers (set_Slots w p)) as [workers' h'].
    by apply IH.
Qed.

(** X5: the slice [reschedule] returns shares no memory with anything that
    existed before the call: it is [nil] or lies in an array allocated
    during the call, so writing to the result cannot reach the input. *)
Theorem reschedule_result_is_fresh (growcap : nat → nat)
    (h : gmap nat (list HostSpec)) (hosts s : Mem.slice) (partition : list Z) :
  (Mem.reschedule growcap h hosts partition).1 = ok s →
  match s with
  | Mem.nil_slice => True
  | Mem.mk_slice ptr _ _ _ =>
      h !! ptr = None
      ∧ is_Some ((Mem.reschedule growcap h hosts partition).2 !! ptr)
  end.
Proof.
  intros Hok.
  pose proof (Mem.reschedule_frame growcap h hosts partition) as Hsub.
  assert (Mem.outside h s) as Hout.
  { revert Hok. unfold Mem.reschedule. destruct (_ <? _)%nat; [done|].
    by apply reschedule_loop_outside. }
  destruct s as [|ptr off len cap]; [done|]. split; [done|].
  assert (Mem.wf (Mem.reschedule growcap h hosts partition).2 (Mem.mk_slice ptr off len cap))
    as (_ & arr & Harr & _); [|by rewrite Harr].
  revert Hok. unfold Mem.reschedule. destruct (_ <? _)%nat; [done|].
  by apply reschedule_loop_wf.
Qed.

Lemma reschedule_result_is_fresh_witness :
  let h : gmap nat (list HostSpec) := {[ 0%nat := [host_a; host_b] ]} in
  let r := Mem.reschedule (λ c, 2 * c)%nat h (Mem.mk_slice 0 0 2 2) [1; 2] in
  h !! 2%nat = None ∧ is_Some (r.2 !! 2%nat).
Proof.
  apply (reschedule_result_is_fresh (λ c, 2 * c)%nat {[ 0%nat := [host_a; host_b] ]}
           (Mem.mk_slice 0 0 2 2) (Mem.mk_slice 2 0 2 2) [1; 2]).
  vm_compute. reflexivity.
Defined.

(** ** More on [grep] and the scraping of results *)

Lemma strings_Contains_empty (s : string) : strings_Contains s "" = true.
Proof. by destruct s. Qed.

(** X6: [grep] works line by line: the lines kept from a concatenation are
    those kept from its parts, in order. *)
Theorem grep_app (pattern : string) (input1 input2 : list string) :
  grep pattern (input1 ++ input2) = grep pattern input1 ++ grep pattern input2.
Proof. rewrite !grep_filter. apply filter_app. Qed.

(** X7: [grep] keeps a subsequence of its input, never more lines than it
    was given, and a second pass with the same pattern keeps all of them. *)
Theorem grep_sublist_idempotent (pattern : string) (input : list string) :
  grep pattern input `sublist_of` input
  ∧ (length (grep pattern input) ≤ length input)%nat
  ∧ grep pattern (grep pattern input) = grep pattern input.
Proof.
  rewrite !grep_filter. split; [apply sublist_filter|].
  split; [apply length_filter|].
  induction input as [|line input IH]; [done|].
  destruct (strings_Contains line pattern) eqn:E.
  - rewrite filter_cons_True by done. rewrite filter_cons_True by done. by rewrite IH.
  - by rewrite filter_cons_False by (by rewrite E).
Qed.

(** X8: the empty pattern occurs in every line, the empty line included,
    so [grep] with it keeps the whole input. *)
Theorem grep_empty_pattern (input : list string) : grep "" input = input.
Proof.
  rewrite grep_filter. induction input as [|line input IH]; [done|].
  rewrite filter_cons_True by apply strings_Contains_empty. by rewrite IH.
Qed.

(** X9: of all the captured output only the first line that contains the
    label, taking the processes in order and each one's lines in order, is
    ever handed to [parseResult]; without such a line the result is left as
    it was.  Lines after it, matching or not, play no part, even when the
    first one does not parse. *)
Theorem scrape_first_match (ParseFloat_other : list N → option spec_float)
    (results : list RunResult) (res : Result) :
  scrape ParseFloat_other results res
  = match grep "Img/sec per /gpu:0" (concat (Stdout <$> results)) with
    | line :: _ => parseResult ParseFloat_other line res
    | [] => res
    end.
Proof.
  induction results as [|r results IH]; [done|].
  rewrite fmap_cons. simpl concat. rewrite grep_app. simpl scrape.
  destruct (grep "Img/sec per /gpu:0" (Stdout r)) as [|line lines]; [|done].
  by rewrite IH.
Qed.

(** ** More on [parseResult] *)

(** The payload bits a leading byte of a multi-byte encoding contributes,
    by exhaustion over the 256 bytes. *)
Lemma lead2_payload c0 :
  fmt.between 194 223 (Ascii.N_of_ascii c0) = true →
  (2 ≤ N.land (Ascii.N_of_ascii c0) 31)%N.
Proof. destruct c0 as [[] [] [] [] [] [] [] []]; vm_compute; congruence. Qed.

Lemma lead3_payload c0 :
  fmt.between 224 239 (Ascii.N_of_ascii c0) = true →
  (Ascii.N_of_ascii c0 =? 224)%N = false →
  (1 ≤ N.land (Ascii.N_of_ascii c0) 15)%N.
Proof. destruct c0 as [[] [] [] [] [] [] [] []]; vm_compute; congruence. Qed.

Lemma lead4_payload c0 :
  fmt.between 240 244 (Ascii.N_of_ascii c0) = true →
  (Ascii.N_of_ascii c0 =? 240)%N = false →
  (1 ≤ N.land (Ascii.N_of_ascii c0) 7)%N.
Proof. destruct c0 as [[] [] [] [] [] [] [] []]; vm_compute; congruence. Qed.

Lemma cont_from_160 c1 :
  fmt.between 160 191 (Ascii.N_of_ascii c1) = true → (32 ≤ fmt.cont c1)%N.
Proof. destruct c1 as [[] [] [] [] [] [] [] []]; vm_compute; congruence. Qed.

Lemma cont_from_144 c1 :
  fmt.between 144 191 (Ascii.N_of_ascii c1) = true → (16 ≤ fmt.cont c1)%N.
Proof. destruct c1 as [[] [] [] [] [] [] [] []]; vm_compute; congruence. Qed.

(** The first rune of a text is its first byte when that is ASCII, and is
    no ASCII character otherwise. *)
Lemma runes_head (c0 : Ascii.ascii) (s : list Ascii.ascii) :
  ((Ascii.N_of_ascii c0 < 128)%N
   ∧ fmt.runes (c0 :: s) = Ascii.N_of_ascii c0 :: fmt.runes s)
  ∨ ((128 ≤ Ascii.N_of_ascii c0)%N
     ∧ ∃ r rest, fmt.runes (c0 :: s) = r :: rest ∧ (128 ≤ r)%N).
Proof.
  cbn [fmt.runes].
  destruct (N.ltb_spec (Ascii.N_of_ascii c0) 128) as [?|Hge]; [by left|].
  right. split; [done|].
  assert ((128 ≤ fmt.RuneError)%N) as Hbad by (by vm_compute).
  destruct (fmt.between 194 223 _) eqn:H2.
  { destruct s as [|c1 s2]; [by eexists _, _|].
    destruct (fmt.between 128 191 _); [|by eexists _, _].
    eexists _, _. split; [done|].
    pose proof (lead2_payload c0 H2). rewrite N.shiftl_mul_pow2. lia. }
  destruct (fmt.between 224 239 _) eqn:H3.
  { destruct s as [|c1 [|c2 s3]]; try (by eexists _, _).
    destruct (_ && _) eqn:Hc; [|by eexists _, _].
    apply andb_true_iff in Hc as [Hc1 _].
    eexists _, _. split; [done|]. rewrite !N.shiftl_mul_pow2.
    destruct (Ascii.N_of_ascii c0 =? 224)%N eqn:E.
    - destruct (Ascii.N_of_ascii c0 =? 237)%N eqn:E';
        [apply N.eqb_eq in E, E'; lia|].
      pose proof (cont_from_160 c1 Hc1). lia.
    - pose proof (lead3_payload c0 H3 E). lia. }
  destruct (fmt.between 240 244 _) eqn:H4; [|by eexists _, _].
  destruct s as [|c1 [|c2 [|c3 s4]]]; try (by eexists _, _).
  destruct (_ && _ && _) eqn:Hc; [|by eexists _, _].
  apply andb_true_iff in Hc as [Hc _]. apply andb_true_iff in Hc as [Hc1 _].
  eexists _, _. split; [done|]. rewrite !N.shiftl_mul_pow2.
  destruct (Ascii.N_of_ascii c0 =? 240)%N eqn:E.
  - destruct (Ascii.N_of_ascii c0 =? 244)%N eqn:E';
      [apply N.eqb_eq in E, E'; lia|].
    pose proof (cont_from_144 c1 Hc1). lia.
  - pose proof (lead4_payload c0 H4 E). lia.
Qed.

(** The literals a format starts with, when they are ASCII, must be the
    first bytes of the text, or the scanner stops without storing. *)
Lemma doScanf_leading_literals (ParseFloat_other : list N → option spec_float)
    (lits : string) (ds : list fmt.directive) (a : list spec_float) (n : nat) :
  ∀ text : string,
    Forall (λ c, (Ascii.N_of_ascii c < 128)%N) (String.list_ascii_of_string lits) →
    strings_HasPrefix text lits = false →
    (fmt.doScanf ParseFloat_other
       (((λ c, fmt.Lit (Ascii.N_of_ascii c)) <$> String.list_ascii_of_string lits) ++ ds)
       (fmt.runes_of text) a n).2 = a.
Proof.
  induction lits as [|c lits IH]; intros text Hascii Hpre; [done|].
  simpl in Hascii. apply Forall_cons in Hascii as [Hc Hascii].
  unfold fmt.runes_of in *. destruct text as [|b text]; [done|].
  simpl in Hpre. cbn [String.list_ascii_of_string fmap list_fmap app fmt.doScanf].
  destruct (runes_head b (String.list_ascii_of_string text))
    as [[Hb ->]|(Hb & r & rest & -> & Hr)]; cbn [fmt.match_lit].
  - destruct (N.eqb_spec (Ascii.N_of_ascii c) (Ascii.N_of_ascii b)) as [Heq|Hne]; [|done].
    assert (b = c) as ->.
    { by rewrite <- (Ascii.ascii_N_embedding b), <- (Ascii.ascii_N_embedding c), Heq. }
    rewrite Ascii.eqb_refl in Hpre. by apply IH.
  - destruct (N.eqb_spec (Ascii.N_of_ascii c) r) as [Heq|Hne]; [lia|done].
Qed.

(** X10: [parseResult] stores nothing unless the line starts with the
    label: a line that contains ["Img/sec"] only further on, as [grep]
    accepts it, leaves [*r] as it was. *)
Theorem parseResult_needs_label_first (ParseFloat_other : list N → option spec_float)
    (line : string) (r : Result) :
  strings_HasPrefix line "Img/sec" = false →
  parseResult ParseFloat_other line r = r.
Proof.
  intros Hpre. unfold parseResult, fmt.Sscanf.
  assert (fmt.directives "Img/sec per /gpu:0: %f +-%f"
          = ((λ c, fmt.Lit (Ascii.N_of_ascii c)) <$> String.list_ascii_of_string "Img/sec")
            ++ fmt.directives " per /gpu:0: %f +-%f") as -> by (by vm_compute).
  rewrite doScanf_leading_literals; [by destruct r|by repeat constructor|done].
Qed.

Lemma parseResult_needs_label_first_witness :
  parseResult (λ _, None) "[10.0.0.1] Img/sec per /gpu:0: 123.4 +-5.6" zero_Result
  = zero_Result.
Proof.
  apply (parseResult_needs_label_first (λ _, None)
           "[10.0.0.1] Img/sec per /gpu:0: 123.4 +-5.6" zero_Result).
  reflexivity.
Defined.

(** ** More on the sweep, on the concrete clusters *)

(** X11 on goroutine 5 of the two-host sweep, about to run on both
    hosts. *)
Lemma experiment_gets_the_hosts_it_asked_for_witness :
  length [host_a; host_b] = length [2; 2]
  ∧ [host_a; host_b] ≠ []
  ∧ reschedule [host_a; host_b] [2; 2] ≠ err (errors_New "hosts not enough").
Proof.
  apply (experiment_gets_the_hosts_it_asked_for (Proc := unit) Hostname (λ _, None) "" true 90
           "bench" [] [host_a; host_b] (spawned [host_a; host_b])
           two_hosts_midway.1 two_hosts_midway.2 5%nat (KungFu_Simple, [2; 2])
           [host_a; host_b]).
  - apply run_schedule_exec with (sched := goroutine_5_alone).
    vm_compute. reflexivity.
  - reflexivity.
Defined.

(** X12 on the two-host sweep with both hosts borrowed. *)
Lemma hosts_are_used_exclusively_witness :
  let s := two_hosts_midway.2 in
  NoDup (pool (mem s) ++ borrowed s)
  ∧ ∀ i tk p h, threads s !! i = Some (tk, p) → h ∈ held p →
      (h ∉ pool (mem s))
      ∧ ∀ j tk' p', j ≠ i → threads s !! j = Some (tk', p') → h ∉ held p'.
Proof.
  apply (hosts_are_used_exclusively (Proc := unit) Hostname (λ _, None) "" true 90 "bench" []
           [host_a; host_b] (spawned [host_a; host_b])
           two_hosts_midway.1 two_hosts_midway.2).
  - apply NoDup_cons. split.
    + intros Hin. apply list_elem_of_singleton in Hin. discriminate Hin.
    + apply NoDup_singleton.
  - apply run_schedule_exec with (sched := goroutine_5_alone).
    vm_compute. reflexivity.
Defined.

(** X13 on the one-host sweep after a success and a timeout. *)
Lemma one_record_per_experiment_witness :
  (∀ i, (length (appended i one_host_later.1) ≤ 1)%nat)
  ∧ (length (records (mem one_host_later.2)) ≤ length (spawned [host_a]))%nat.
Proof.
  apply (one_record_per_experiment (Proc := unit) Hostname (λ _, None) "" true 90 "bench" []
           [host_a] (spawned [host_a]) one_host_later.1 one_host_later.2).
  apply run_schedule_exec with (sched := two_goroutines_in_turn).
  vm_compute. reflexivity.
Defined.

(** X15 on the one-host sweep after a success and a timeout, every later
    run timing out. *)
Lemma one_host_experiments_cannot_stall_witness :
  ∃ sched tr' s',
    demo_run ((λ i, (i, late_World)) <$> sched) one_host_later.2 = Some (tr', s')
    ∧ all_finished s'.
Proof.
  apply (one_host_experiments_cannot_stall (Proc := unit) Hostname (λ _, None) "" true 90
           "bench" [] (λ _, late_World) [host_a] (spawned [host_a])
           one_host_later.1 one_host_later.2).
  - discriminate.
  - repeat (apply Forall_cons; split; [reflexivity|]). apply Forall_nil. exact I.
  - apply run_schedule_exec with (sched := two_goroutines_in_turn).
    vm_compute. reflexivity.
Defined.

(** ** [inferIP] and the choice of the own address ([kungfu-run]) *)

Module net.

(** [net.IP] is a byte slice; [[]] stands for [nil], which [len] and
    [To4] do not tell from the empty slice. *)
Definition IP : Type := list Ascii.ascii.

Definition isZeros (p : IP) : bool :=
  forallb (λ b, (Ascii.N_of_ascii b =? 0)%N) p.

(** [ip.To4()]: the four bytes of an IPv4 address, given on four bytes or
    as an IPv4-mapped IPv6 address; [None] is [nil]. *)
Definition To4 (ip : IP) : option IP :=
  if (length ip =? 4)%nat then Some ip
  else if (length ip =? 16)%nat && isZeros (take 10 ip)
          && bool_decide (Ascii.N_of_ascii <$> ip !! 10%nat = Some 255%N)
          && bool_decide (Ascii.N_of_ascii <$> ip !! 11%nat = Some 255%N)
  then Some (drop 12 ip)
  else None.

(** [uitoa]: decimal digits without leading zero. *)
Definition uitoa (n : N) : string :=
  DecimalString.NilZero.string_of_uint (N.to_uint n).

Definition dotted (a b c d : Ascii.ascii) : string :=
  uitoa (Ascii.N_of_ascii a) +:+ "." +:+ uitoa (Ascii.N_of_ascii b) +:+ "."
  +:+ uitoa (Ascii.N_of_ascii c) +:+ "." +:+ uitoa (Ascii.N_of_ascii d).

(** [ip.String()]: dotted decimal for an address with an IPv4 form;
    [String_other] is the text of the others. *)
Definition IP_String (String_other : IP → string) (ip : IP) : string :=
  match ip with
  | [] => "<nil>"
  | _ =>
      match To4 ip with
      | Some [a; b; c; d] => dotted a b c d
      | _ => String_other ip
      end
  end.

(** The values behind [net.Addr] that [inferIP] tells apart. *)
Inductive Addr : Type :=
| IPNet (ip : IP) (mask : list Ascii.ascii)     (* [*net.IPNet] *)
| IPAddr (ip : IP) (zone : string)              (* [*net.IPAddr] *)
| other_Addr (network text : string).

(** A network interface with the answer of its [Addrs()]. *)
Record Interface : Type := mkInterface {
  Name : string;
  Addrs : list Addr * option error;
}.

End net.

(** The type switch: [ip] stays [nil] for another kind of address. *)
Definition ip_of (addr : net.Addr) : net.IP :=
  match addr with
  | net.IPNet ip _ => ip
  | net.IPAddr ip _ => ip
  | net.other_Addr _ _ => []
  end.

Section inferIP.
Variable String_other : net.IP → string.

(** [for _, addr := range addrs]: the first address with an IPv4 form
    ends [inferIP]. *)
Fixpoint inferIP_addrs (addrs : list net.Addr) : option string :=
  match addrs with
  | [] => None
  | addr :: addrs' =>
      let ip := ip_of addr in
      match net.To4 ip with
      | Some _ => Some (net.IP_String String_other ip)
      | None => inferIP_addrs addrs'
      end
  end.

(** [for _, i := range ifaces]. *)
Fixpoint inferIP_ifaces (nicName : string) (ifaces : list net.Interface) : string :=
  match ifaces with
  | [] => "127.0.0.1"
  | i :: ifaces' =>
      if negb (String.eqb (net.Name i) nicName) then inferIP_ifaces nicName ifaces'
      else
        match net.Addrs i with
        | (_, Some _) => inferIP_ifaces nicName ifaces'
        | (addrs, None) =>
            match inferIP_addrs addrs with
            | Some s => s
            | None => inferIP_ifaces nicName ifaces'
            end
        end
  end.

(** [inferIP(nicName)], [Interfaces] being the answer of
    [net.Interfaces()]. *)
Definition inferIP (Interfaces : list net.Interface * option error)
    (nicName : string) : string :=
  match Interfaces with
  | (_, Some _) => "127.0.0.1"
  | (ifaces, None) => inferIP_ifaces nicName ifaces
  end.

(** The closure of [main] that sets [selfIP], from the flags [-self] and
    [-nic]. *)
Definition selfIP (selfHost nicName : string)
    (Interfaces : list net.Interface * option error) : string :=
  if (0 <? String.length selfHost)%nat then selfHost
  else if (0 <? String.length nicName)%nat then inferIP Interfaces nicName
  else "127.0.0.1".

(** The addresses [inferIP(nicName)] chooses from, in order: the IPv4
    forms of the addresses of the interfaces named [nicName] whose
    addresses can be read. *)
Definition candidates (nicName : string) (ifaces : list net.Interface)
  : list net.IP :=
  i ← filter (λ i, net.Name i = nicName) ifaces;
  match net.Addrs i with
  | (addrs, None) => omap (λ addr, net.To4 (ip_of addr)) addrs
  | (_, Some _) => []
  end.

Lemma To4_four (ip p4 : net.IP) :
  net.To4 ip = Some p4 → ∃ a b c d, p4 = [a; b; c; d].
Proof.
  unfold net.To4. destruct (Nat.eqb_spec (length ip) 4) as [H4|_].
  - intros [= <-]. destruct ip as [|a [|b [|c [|d [|e ip]]]]]; try done.
    by exists a, b, c, d.
  - destruct (Nat.eqb_spec (length ip) 16) as [H16|_]; [|done].
    destruct (_ && _ && _); [|done]. intros [= <-].
    do 12 (destruct ip as [|? ip]; [done|]). simpl.
    destruct ip as [|w [|x [|y [|z [|e ip]]]]]; try done.
    by exists w, x, y, z.
Qed.

Lemma To4_nil : net.To4 [] = None.
Proof. reflexivity. Qed.

Lemma IP_String_To4 (ip : net.IP) a b c d :
  net.To4 ip = Some [a; b; c; d] → net.IP_String String_other ip = net.dotted a b c d.
Proof.
  intros H4. unfold net.IP_String. rewrite H4.
  destruct ip; [by rewrite To4_nil in H4|done].
Qed.

Lemma inferIP_addrs_spec (addrs : list net.Addr) :
  inferIP_addrs addrs
  = match omap (λ addr, net.To4 (ip_of addr)) addrs with
    | [a; b; c; d] :: _ => Some (net.dotted a b c d)
    | _ => None
    end
  ∧ Forall (λ p4, length p4 = 4%nat) (omap (λ addr, net.To4 (ip_of addr)) addrs).
Proof.
  induction addrs as [|addr addrs [IH IHall]]; [split; [done|constructor]|].
  simpl. destruct (net.To4 (ip_of addr)) as [p4|] eqn:H4; [|done].
  destruct (To4_four _ _ H4) as (a & b & c & d & ->). simpl.
  split; [by rewrite (IP_String_To4 _ a b c d)|by constructor].
Qed.

Lemma inferIP_ifaces_spec (ifaces : list net.Interface) (nicName : string) :
  inferIP_ifaces nicName ifaces
  = match candidates nicName ifaces with
    | [a; b; c; d] :: _ => net.dotted a b c d
    | _ => "127.0.0.1"
    end.
Proof.
  induction ifaces as [|i ifaces IH]; [done|].
  unfold candidates in *. simpl.
  destruct (String.eqb_spec (net.Name i) nicName) as [Heq|Hne]; simpl.
  - rewrite filter_cons_True by done. rewrite bind_cons.
    destruct (net.Addrs i) as [addrs [e|]]; [done|].
    destruct (inferIP_addrs_spec addrs) as [-> Hall].
    destruct (omap _ addrs) as [|p4 ps]; [done|].
    apply Forall_cons in Hall as [Hlen _].
    destruct p4 as [|a [|b [|c [|d [|e p4]]]]]; done.
  - by rewrite filter_cons_False by done.
Qed.

Lemma uitoa_nonempty (n : N) : (0 < String.length (net.uitoa n))%nat.
Proof. unfold net.uitoa. destruct (N.to_uint n); simpl; lia. Qed.

Lemma dotted_nonempty a b c d : (0 < String.length (net.dotted a b c d))%nat.
Proof.
  unfold net.dotted. pose proof (uitoa_nonempty (Ascii.N_of_ascii a)) as Ha.
  destruct (net.uitoa (Ascii.N_of_ascii a)); simpl in *; lia.
Qed.

Lemma inferIP_dotted (Interfaces : list net.Interface * option error)
    (nicName : string) :
  ∃ a b c d, inferIP Interfaces nicName = net.dotted a b c d.
Proof.
  assert (∃ a b c d, "127.0.0.1" = net.dotted a b c d) as Hloop.
  { exists (Ascii.ascii_of_N 127), (Ascii.ascii_of_N 0), (Ascii.ascii_of_N 0),
      (Ascii.ascii_of_N 1). reflexivity. }
  destruct Interfaces as [ifaces [e|]]; simpl; [done|].
  rewrite inferIP_ifaces_spec.
  destruct (candidates nicName ifaces) as [|[|a [|b [|c [|d [|e p4]]]]] ps]; try done.
  by exists a, b, c, d.
Qed.

(** X16: [inferIP] answers with the first address, in dotted decimal,
    among the IPv4 addresses of the interfaces named [nicName] whose
    addresses can be read, and with ["127.0.0.1"] when there is none or
    the interfaces cannot be listed; interfaces of another name, unreadable
    ones and addresses without IPv4 form are passed over. *)
Theorem inferIP_first_IPv4 (ifaces : list net.Interface) (failure : option error)
    (nicName : string) :
  inferIP (ifaces, failure) nicName
  = match failure, candidates nicName ifaces with
    | None, [a; b; c; d] :: _ => net.dotted a b c d
    | _, _ => "127.0.0.1"
    end.
Proof.
  destruct failure as [e|]; [done|]. simpl. apply inferIP_ifaces_spec.
Qed.

(** X17: the host of the parent peer is never empty: it is [-self] as
    given when that is set, and a dotted-decimal IPv4 address otherwise,
    whatever the interfaces are. *)
Theorem selfIP_is_set (selfHost nicName : string)
    (Interfaces : list net.Interface * option error) :
  (0 < String.length (selfIP selfHost nicName Interfaces))%nat
  ∧ (selfHost ≠ "" ∧ selfIP selfHost nicName Interfaces = selfHost
     ∨ selfHost = ""
       ∧ ∃ a b c d, selfIP selfHost nicName Interfaces = net.dotted a b c d).
Proof.
  unfold selfIP. destruct selfHost as [|ch selfHost]; simpl.
  - assert (∃ a b c d,
      (if (0 <? String.length nicName)%nat then inferIP Interfaces nicName
       else "127.0.0.1") = net.dotted a b c d) as (a & b & c & d & ->).
    { destruct (0 <? String.length nicName)%nat; [apply inferIP_dotted|].
      exists (Ascii.ascii_of_N 127), (Ascii.ascii_of_N 0), (Ascii.ascii_of_N 0),
        (Ascii.ascii_of_N 1). reflexivity. }
    split; [apply dotted_nonempty|]. right. split; [done|]. by exists a, b, c, d.
  - split; [lia|]. by left.
Qed.
End inferIP.

(** An interface with an IPv6 and an IPv4 address, after one of another
    name and one whose addresses cannot be read. *)
Example inferIP_on_eth0 :
  let v4 := Ascii.ascii_of_N <$> [192; 168; 1; 7]%N in
  let v6 := Ascii.ascii_of_N <$> [254; 128; 0; 0; 0; 0; 0; 0; 0; 0; 0; 0; 0; 0; 0; 1]%N in
  let mapped := Ascii.ascii_of_N <$> [0; 0; 0; 0; 0; 0; 0; 0; 0; 0; 255; 255; 10; 0; 0; 9]%N in
  inferIP (λ _, "?")
    ([net.mkInterface "lo" ([net.IPNet (Ascii.ascii_of_N <$> [127; 0; 0; 1]%N) []], None);
      net.mkInterface "eth0" ([], Some (errors_New "route ip+net: no such network interface"));
      net.mkInterface "eth0" ([net.other_Addr "tcp" ":80"; net.IPNet v6 []; net.IPAddr mapped "";
                               net.IPNet v4 []], None)],
     None) "eth0"
  = "10.0.0.9".
Proof. reflexivity. Qed.
